(** * wp5-mam-planner: the ROI queue and the plane-alignment solver of [Subtask]

    A shallow embedding of [src/wp5-mam-planner/src/Subtask.cpp].

    - [IEEE]: the C++ [double].  Finite values are real numbers and the
      arithmetic on them is exact (rounding, overflow, underflow and the sign
      of zero are left out); the special values [+inf], [-inf] and [NaN] and
      the rules by which IEEE 754 operations produce and propagate them are
      kept, so that a division [0/0] or an [acos] outside [-1,1] shows up as
      [NaN].  The code computes in binary64 and differs from this wherever a
      result is rounded.  What is stated of the numerical code is therefore
      of two kinds only: facts that no rounding changes (a difference [x - x]
      and a product [0 * y] are zero, [0/0] is NaN and NaN propagates, a
      product does not depend on the order of its factors), on inputs bounded
      so that nothing overflows where that matters; and facts stated within a
      tolerance for inputs that keep the computation far from overflow,
      underflow and cancellation ([well_conditioned]).
    - [Eigen]: the operations of [Eigen::Vector3d] and [Eigen::Quaterniond]
      that the file calls, after the sources of Eigen 3.3, the version of ROS
      Noetic.
    - the solver [rotateVectorInPlan_], the tokenizer [splitString_] with
      [std::stod] (which rounds to the nearest double), and the queue
      operations of the class.
    - [TestHelpers]: the helpers of the kinematics tests in
      [src/wp5-robotic-arms/test/test_robotic_arm_ur5.cpp] and
      [test_robotic_arm_ur.cpp] that compare orientations and positions and
      draw reachable waypoints. *)

From Stdlib Require Import Reals Lra Psatz.
From Stdlib Require Import ZArith QArith Qabs Lia.
From Stdlib Require Import Bool List Ascii String.
Import ListNotations.

(* ================================================================== *)
(** ** IEEE 754 doubles with exact finite arithmetic *)

Module IEEE.

Local Open Scope R_scope.

Inductive double : Type :=
| Fin (r : R)
| PInf
| NInf
| NaN.

Definition inf_of_sign (negative : bool) : double :=
  if negative then NInf else PInf.

(** [±inf * r] and [±inf / r] for a finite [r] ([0] counts as [+0] in the
    quotient). *)
Definition inf_times (negative : bool) (r : R) : double :=
  if Req_dec_T r 0 then NaN
  else if Rlt_dec r 0 then inf_of_sign (negb negative)
  else inf_of_sign negative.

Definition inf_over (negative : bool) (r : R) : double :=
  if Rlt_dec r 0 then inf_of_sign (negb negative) else inf_of_sign negative.

Definition dadd (a b : double) : double :=
  match a, b with
  | NaN, _ | _, NaN => NaN
  | Fin r, Fin s => Fin (r + s)
  | PInf, NInf | NInf, PInf => NaN
  | PInf, _ | _, PInf => PInf
  | NInf, _ | _, NInf => NInf
  end.

Definition dsub (a b : double) : double :=
  match a, b with
  | NaN, _ | _, NaN => NaN
  | Fin r, Fin s => Fin (r - s)
  | PInf, PInf | NInf, NInf => NaN
  | PInf, _ | _, NInf => PInf
  | NInf, _ | _, PInf => NInf
  end.

Definition dmul (a b : double) : double :=
  match a, b with
  | NaN, _ | _, NaN => NaN
  | Fin r, Fin s => Fin (r * s)
  | PInf, Fin s => inf_times false s
  | NInf, Fin s => inf_times true s
  | Fin r, PInf => inf_times false r
  | Fin r, NInf => inf_times true r
  | PInf, PInf | NInf, NInf => PInf
  | PInf, NInf | NInf, PInf => NInf
  end.

Definition ddiv (a b : double) : double :=
  match a, b with
  | NaN, _ | _, NaN => NaN
  | Fin r, Fin s =>
      if Req_dec_T s 0 then
        if Req_dec_T r 0 then NaN
        else if Rlt_dec r 0 then NInf else PInf
      else Fin (r / s)
  | Fin _, (PInf | NInf) => Fin 0
  | PInf, Fin s => inf_over false s
  | NInf, Fin s => inf_over true s
  | (PInf | NInf), (PInf | NInf) => NaN
  end.

Definition dsqrt (a : double) : double :=
  match a with
  | Fin r => if Rlt_dec r 0 then NaN else Fin (sqrt r)
  | PInf => PInf
  | NInf | NaN => NaN
  end.

Definition dcos (a : double) : double :=
  match a with
  | Fin r => Fin (cos r)
  | _ => NaN
  end.

Definition dsin (a : double) : double :=
  match a with
  | Fin r => Fin (sin r)
  | _ => NaN
  end.

Definition dacos (a : double) : double :=
  match a with
  | Fin r =>
      if Rlt_dec r (-1) then NaN
      else if Rlt_dec 1 r then NaN
      else Fin (acos r)
  | _ => NaN
  end.

(** [a > b]; every comparison with [NaN] is false. *)
Definition dgt (a b : double) : bool :=
  match a, b with
  | NaN, _ | _, NaN => false
  | Fin r, Fin s => if Rlt_dec s r then true else false
  | PInf, (Fin _ | NInf) => true
  | Fin _, NInf => true
  | _, _ => false
  end.

Definition is_nan (a : double) : bool :=
  match a with NaN => true | _ => false end.

Definition is_finite (a : double) : bool :=
  match a with Fin _ => true | _ => false end.

End IEEE.

Export IEEE.

Declare Scope double_scope.
Delimit Scope double_scope with D.
Bind Scope double_scope with double.
Infix "+" := dadd : double_scope.
Infix "-" := dsub : double_scope.
Infix "*" := dmul : double_scope.
Infix "/" := ddiv : double_scope.

(* ================================================================== *)
(** ** Eigen: [Vector3d] and [Quaterniond] *)

Module Eigen.

Local Open Scope double_scope.

Record Vector3d : Type := mkVector3d { vx : double; vy : double; vz : double }.

(** Coefficients in the order of the constructor [Quaterniond(w, x, y, z)]. *)
Record Quaterniond : Type :=
  mkQuaterniond { qw : double; qx : double; qy : double; qz : double }.

(** [a + b] and [a - b]. *)
Definition vadd (a b : Vector3d) : Vector3d :=
  mkVector3d (vx a + vx b) (vy a + vy b) (vz a + vz b).

Definition vsub (a b : Vector3d) : Vector3d :=
  mkVector3d (vx a - vx b) (vy a - vy b) (vz a - vz b).

(** [s * v] and [v / s]. *)
Definition vscale (s : double) (v : Vector3d) : Vector3d :=
  mkVector3d (s * vx v) (s * vy v) (s * vz v).

Definition vquot (v : Vector3d) (s : double) : Vector3d :=
  mkVector3d (vx v / s) (vy v / s) (vz v / s).

(** [a.cross(b)]. *)
Definition cross (a b : Vector3d) : Vector3d :=
  mkVector3d (vy a * vz b - vz a * vy b)
             (vz a * vx b - vx a * vz b)
             (vx a * vy b - vy a * vx b).

(** [a.dot(b)]. *)
Definition dot (a b : Vector3d) : double :=
  vx a * vx b + vy a * vy b + vz a * vz b.

Definition squaredNorm (v : Vector3d) : double :=
  vx v * vx v + vy v * vy v + vz v * vz v.

Definition norm (v : Vector3d) : double := dsqrt (squaredNorm v).

(** [v.normalized()]: Eigen divides by the norm only when the squared norm is
    positive, and returns a copy of the vector otherwise. *)
Definition normalized (v : Vector3d) : Vector3d :=
  let z := squaredNorm v in
  if dgt z (Fin 0) then vquot v (dsqrt z) else v.

(** [q.vec()], the vector part. *)
Definition vec (q : Quaterniond) : Vector3d :=
  mkVector3d (qx q) (qy q) (qz q).

(** [q * v] ([QuaternionBase::_transformVector]):
    [uv = vec().cross(v); uv += uv; return v + w() * uv + vec().cross(uv)]. *)
Definition transformVector (q : Quaterniond) (v : Vector3d) : Vector3d :=
  let uv := cross (vec q) v in
  let uv := vadd uv uv in
  vadd (vadd v (vscale (qw q) uv)) (cross (vec q) uv).


End Eigen.

Export Eigen.

(* ================================================================== *)
(** ** The plane-alignment solver *)

Local Open Scope double_scope.

(** The first half of [Subtask::rotateVectorInPlan_] (lines 98-108): the edge
    vector [pointsArray[0] - pointsArray[1]] turned by [theta] about the normal
    of the plane of the three points. *)
Definition rotatedVectPlan
    (pointsArray : Vector3d * Vector3d * Vector3d) (theta : double) : Vector3d :=
  let '(p0, p1, p2) := pointsArray in
  let planVector1 := vsub p0 p1 in
  let planVector2 := vsub p0 p2 in
  let normalVector := normalized (cross planVector1 planVector2) in
  let quatRotation :=
    mkQuaterniond (dcos (theta / Fin 2))
                  (vx normalVector * dsin (theta / Fin 2))
                  (vy normalVector * dsin (theta / Fin 2))
                  (vz normalVector * dsin (theta / Fin 2)) in
  transformVector quatRotation planVector1.

(** [Subtask::rotateVectorInPlan_]. *)
Definition rotateVectorInPlan_
    (pointsArray : Vector3d * Vector3d * Vector3d)
    (refVector : Vector3d) (theta : double) : Quaterniond :=
  let rotatedVectPlan := rotatedVectPlan pointsArray theta in
  let axisFinalRot := normalized (cross refVector rotatedVectPlan) in
  let angleFinalRot :=
    dacos (dot refVector rotatedVectPlan / (norm refVector * norm rotatedVectPlan)) in
  mkQuaterniond (dcos (angleFinalRot / Fin 2))
                (vx axisFinalRot * dsin (angleFinalRot / Fin 2))
                (vy axisFinalRot * dsin (angleFinalRot / Fin 2))
                (vz axisFinalRot * dsin (angleFinalRot / Fin 2)).

(* ================================================================== *)
(** ** Outcomes of a call *)

(** What [std::stod] throws. *)
Inductive exception : Type :=
| invalid_argument
| out_of_range.

(** A call returns a value, leaves by an exception that nothing in the file
    catches, or has undefined behaviour (an unchecked [std::vector::operator[]]
    past the end). *)
Inductive outcome (A : Type) : Type :=
| Returns (a : A)
| Throws (e : exception)
| Undefined.

Arguments Returns {A} a.
Arguments Throws {A} e.
Arguments Undefined {A}.

Definition bind {A B : Type} (m : outcome A) (k : A -> outcome B) : outcome B :=
  match m with
  | Returns a => k a
  | Throws e => Throws e
  | Undefined => Undefined
  end.

Notation "x <- m ;; k" := (bind m (fun x => k))
  (at level 61, m at next level, right associativity).
Notation "' p <- m ;; k" := (bind m (fun x => match x with p => k end))
  (at level 61, p pattern, m at next level, right associativity).

(* ================================================================== *)
(** ** [std::stod] *)

Module Strtod.

Local Open Scope N_scope.

(** [isspace] in the C locale: tab, line feed, vertical tab, form feed,
    carriage return, space. *)
Definition isspace (c : ascii) : bool :=
  let n := N_of_ascii c in ((9 <=? n) && (n <=? 13)) || (n =? 32).

Definition tolower (c : ascii) : ascii :=
  let n := N_of_ascii c in
  if (65 <=? n) && (n <=? 90) then ascii_of_N (n + 32) else c.

Definition digit_value (c : ascii) : option N :=
  let n := N_of_ascii c in
  if (48 <=? n) && (n <=? 57) then Some (n - 48) else None.

Definition xdigit_value (c : ascii) : option N :=
  let n := N_of_ascii (tolower c) in
  if (48 <=? n) && (n <=? 57) then Some (n - 48)
  else if (97 <=? n) && (n <=? 102) then Some (n - 87)
  else None.

Fixpoint skip_space (s : string) : string :=
  match s with
  | String c s' => if isspace c then skip_space s' else s
  | EmptyString => s
  end.

(** An optional sign: [true] for [-]. *)
Definition sign (s : string) : bool * string :=
  match s with
  | String "-" s' => (true, s')
  | String "+" s' => (false, s')
  | _ => (false, s)
  end.

(** The longest run of digits at the head of [s], read in [base] on top of
    [acc]: the number read, how many digits it had, and what follows. *)
Fixpoint digits (value_of : ascii -> option N) (base : N) (s : string) (acc : N)
  : N * nat * string :=
  match s with
  | String c s' =>
      match value_of c with
      | Some d =>
          let '(v, n, rest) := digits value_of base s' (acc * base + d) in
          (v, S n, rest)
      | None => (acc, O, s)
      end
  | EmptyString => (acc, O, s)
  end.

(** Digits with an optional radix point, at least one digit in all: the
    digits read as one integer, the number of digits after the point, and what
    follows. *)
Definition mantissa (value_of : ascii -> option N) (base : N) (s : string)
  : option (N * nat * string) :=
  let '(i, ni, r1) := digits value_of base s 0 in
  match r1 with
  | String "." r2 =>
      let '(f, nf, r3) := digits value_of base r2 i in
      if Nat.eqb (ni + nf) 0 then None else Some (f, nf, r3)
  | _ => if Nat.eqb ni 0 then None else Some (i, O, r1)
  end.

(** An optional exponent part: the marker ([e] or [p], either case), an
    optional sign and at least one decimal digit; [0] when there is none. *)
Definition exponent (marker : ascii) (s : string) : Z :=
  match s with
  | String c r =>
      if Ascii.eqb (tolower c) marker then
        let '(negative, r') := sign r in
        let '(e, n, _) := digits digit_value 10 r' 0 in
        if Nat.eqb n 0 then 0%Z
        else if negative then (- Z.of_N e)%Z else Z.of_N e
      else 0%Z
  | EmptyString => 0%Z
  end.

(** Is [p] (lower case) a prefix of [s], whatever the case of [s]? *)
Fixpoint prefix_nocase (p s : string) : bool :=
  match p, s with
  | EmptyString, _ => true
  | String a p', String b s' => Ascii.eqb a (tolower b) && prefix_nocase p' s'
  | String _ _, EmptyString => false
  end.

Inductive number : Type :=
| Rational (q : Q)
| Infinity (negative : bool)
| NotANumber.

Definition signed (negative : bool) (q : Q) : Q :=
  if negative then Qopp q else q.

Definition decimal (negative : bool) (s : string) : option number :=
  match mantissa digit_value 10 s with
  | Some (m, nf, rest) =>
      let e := exponent "e" rest in
      Some (Rational (signed negative
        (Qmult (inject_Z (Z.of_N m)) (Qpower (inject_Z 10) (e - Z.of_nat nf)))))
  | None => None
  end.

Definition hexadecimal (negative : bool) (s : string) : option number :=
  match mantissa xdigit_value 16 s with
  | Some (m, nf, rest) =>
      let e := exponent "p" rest in
      Some (Rational (signed negative
        (Qmult (inject_Z (Z.of_N m)) (Qpower (inject_Z 2) (e - 4 * Z.of_nat nf)))))
  | None => None
  end.

(** The subject sequence of [strtod]: white space, an optional sign, then
    [inf]/[infinity], [nan], a hexadecimal or a decimal floating constant;
    whatever follows it is ignored.  [None]: no conversion could be made. *)
Definition strtod (s : string) : option number :=
  let '(negative, body) := sign (skip_space s) in
  if prefix_nocase "inf" body then Some (Infinity negative)
  else if prefix_nocase "nan" body then Some NotANumber
  else if prefix_nocase "0x" body then
    match hexadecimal negative (substring 2 (String.length body) body) with
    | Some v => Some v
    | None => decimal negative body
    end
  else decimal negative body.

(** The exponent of the leading bit of a positive rational: the [k] with
    [2^k <= a < 2^(k+1)]. *)
Definition floor_log2 (a : Q) : Z :=
  let k := (Z.log2 (Qnum a) - Z.log2 (Zpos (Qden a)))%Z in
  if Qle_bool (Qpower (inject_Z 2) k) a then k else (k - 1)%Z.

(** A non-negative rational rounded to the nearest integer, ties to even. *)
Definition round_half_even (a : Q) : Z :=
  let m := (Qnum a / Zpos (Qden a))%Z in
  let r := (Qnum a mod Zpos (Qden a))%Z in
  match (2 * r ?= Zpos (Qden a))%Z with
  | Lt => m
  | Gt => (m + 1)%Z
  | Eq => if Z.even m then m else (m + 1)%Z
  end.

(** The binary64 number nearest to [q], ties to even: 53 significant bits,
    and multiples of [2^-1074] below [2^-1022].  (Meant for the values that
    do not overflow, see [erange].) *)
Definition round_binary64 (q : Q) : Q :=
  let a := Qabs q in
  if Qeq_bool a 0 then 0%Q
  else
    let e := Z.max (floor_log2 a - 52) (-1074) in
    let m := round_half_even (Qdiv a (Qpower (inject_Z 2) e)) in
    signed (Qnum q <? 0)%Z (Qmult (inject_Z m) (Qpower (inject_Z 2) e)).

(** [strtod] sets [ERANGE] when the value rounds to an infinity, and (glibc,
    where tininess is detected after rounding) when the value, rounded to 53
    bits, is below the least normal double [2^-1022] and is not a subnormal
    double itself: the bound is [2^-1022 - 2^-1076], from where the value
    rounds up to [2^-1022]. *)
Definition erange (q : Q) : bool :=
  let a := Qabs q in
  Qle_bool (inject_Z (2 ^ 1024 - 2 ^ 970)) a
  || (negb (Qeq_bool a 0)
      && negb (Qle_bool (Qminus (Qpower (inject_Z 2) (-1022))
                                (Qpower (inject_Z 2) (-1076))) a)
      && negb (Pos.eqb (Qden (Qred (Qmult a (inject_Z (2 ^ 1074))))) 1)).

(** The double of a rational that is a binary64 number. *)
Definition double_of_Q (q : Q) : double :=
  let q := Qred q in
  match Qden q with
  | 1%positive => Fin (IZR (Qnum q))
  | d => Fin (IZR (Qnum q) / IZR (Zpos d))
  end.

(** [std::stod(str)]: [invalid_argument] when no conversion could be made,
    [out_of_range] when [strtod] reported [ERANGE], and else the value
    rounded to the nearest double. *)
Definition stod (str : string) : outcome double :=
  match strtod str with
  | None => Throws invalid_argument
  | Some NotANumber => Returns NaN
  | Some (Infinity negative) => Returns (inf_of_sign negative)
  | Some (Rational q) =>
      if erange q then Throws out_of_range
      else Returns (double_of_Q (round_binary64 q))
  end.

End Strtod.

Export Strtod.

(* ================================================================== *)
(** ** [std::getline] on a [std::stringstream] *)

(** The part of the buffer not read yet, and the two state bits the loop of
    [splitString_] depends on. *)
Record stringstream : Type :=
  mkStream { unread : string; eofbit : bool; failbit : bool }.

(** [stringstream ss(str)]. *)
Definition stringstream_of (str : string) : stringstream :=
  mkStream str false false.

(** Characters up to the delimiter: the token, and what follows the delimiter
    ([None] when the end of the buffer came first). *)
Fixpoint extract (s : string) (delimiter : ascii) : string * option string :=
  match s with
  | EmptyString => (EmptyString, None)
  | String c s' =>
      if Ascii.eqb c delimiter then (EmptyString, Some s')
      else let '(token, rest) := extract s' delimiter in (String c token, rest)
  end.

(** One call [getline(ss, token, delimiter)]: the token when the stream
    converts to [true] afterwards, and the stream.  A stream that is not good
    fails at once; reaching the end sets [eofbit]; extracting nothing, not even
    a delimiter, sets [failbit]. *)
Definition getline (ss : stringstream) (delimiter : ascii)
  : option string * stringstream :=
  if eofbit ss || failbit ss then (None, mkStream (unread ss) (eofbit ss) true)
  else
    match extract (unread ss) delimiter with
    | (token, Some rest) => (Some token, mkStream rest false false)
    | (EmptyString, None) => (None, mkStream EmptyString true true)
    | (token, None) => (Some token, mkStream EmptyString true false)
    end.

(** The tokens of [while (getline(ss, token, delimiter))], in order: the
    pieces between delimiters, without a last piece that is empty. *)
Fixpoint getline_tokens (str : string) (delimiter : ascii) : list string :=
  match str with
  | EmptyString => []
  | String c rest =>
      if Ascii.eqb c delimiter then EmptyString :: getline_tokens rest delimiter
      else
        match getline_tokens rest delimiter with
        | [] => [String c EmptyString]
        | token :: tokens => String c token :: tokens
        end
  end.

(** The same loop written with [getline] itself, for at most [fuel] calls. *)
Fixpoint getline_loop (fuel : nat) (ss : stringstream) (delimiter : ascii)
  : list string :=
  match fuel with
  | O => []
  | S fuel' =>
      match getline ss delimiter with
      | (Some token, ss') => token :: getline_loop fuel' ss' delimiter
      | (None, _) => []
      end
  end.

(* ================================================================== *)
(** ** The class [Subtask] *)

(** Modelled from the spec: the record type [Subtask::ROI] is declared in
    [Subtask.h], which is not among the sources; its four fields are those of
    the spec's data model and of the uses in [parseROI_]. *)
Record ROI : Type :=
  mkROI { id : string; posStart : Vector3d; posEnd : Vector3d; quat : Quaterniond }.

(** Modelled from the spec: [ROI()], the value-initialised record that the
    spec calls the all-default, zero-filled sentinel. *)
Definition ROI_default : ROI :=
  mkROI EmptyString
        (mkVector3d (Fin 0) (Fin 0) (Fin 0))
        (mkVector3d (Fin 0) (Fin 0) (Fin 0))
        (mkQuaterniond (Fin 0) (Fin 0) (Fin 0) (Fin 0)).

(** The members of the object that the file reads or writes.  [robotPos_] and
    [refVector_] are declared in the missing header and never assigned here. *)
Record Subtask : Type :=
  mkSubtask { dequeROI_ : list ROI; robotPos_ : Vector3d; refVector_ : Vector3d }.

Definition set_deque (this : Subtask) (d : list ROI) : Subtask :=
  mkSubtask d (robotPos_ this) (refVector_ this).

(** What a call sends to the ROS log and to the debug topics. *)
Inductive event : Type :=
| ROS_ERROR_size (str : string) (expected actual : nat)
| ROS_INFO_registered (key : string)
| ROS_INFO_already_registered (key : string)
| publish_point (topic : string) (pos : Vector3d)
| publish_pose (topic : string) (pos : Vector3d) (q : Quaterniond).

(** [Subtask::clearROI]. *)
Definition clearROI (this : Subtask) : Subtask := set_deque this [].

(** [Subtask::empty]. *)
Definition empty (this : Subtask) : bool :=
  match dequeROI_ this with [] => true | _ :: _ => false end.

(** [Subtask::getROI]. *)
Definition getROI (this : Subtask) : ROI * Subtask :=
  match dequeROI_ this with
  | roi :: rest => (roi, set_deque this rest)
  | [] => (ROI_default, this)
  end.

(** [Subtask::isIdStored_]. *)
Definition isIdStored_ (this : Subtask) (id0 : string) : bool :=
  existsb (fun roi => String.eqb (id roi) id0) (dequeROI_ this).

(** The loop of [Subtask::splitString_] over the tokens that [getline] yields,
    with the two output parameters threaded through. *)
Fixpoint splitString_loop (tokens : list string) (idTaken : bool)
    (waypointID : string) (waypointsPos : list double)
  : outcome (string * list double) :=
  match tokens with
  | [] => Returns (waypointID, waypointsPos)
  | token :: tokens' =>
      if negb idTaken then splitString_loop tokens' true token waypointsPos
      else
        d <- stod token ;;
        splitString_loop tokens' idTaken waypointID (waypointsPos ++ [d])
  end.

(** [Subtask::splitString_]. *)
Definition splitString_ (str : string) (delimiter : ascii)
    (waypointID : string) (waypointsPos : list double)
  : outcome (string * list double) :=
  splitString_loop (getline_tokens str delimiter) false waypointID waypointsPos.

(** [v[i]] on a [std::vector]: no bounds check. *)
Definition at_index (v : list double) (i : nat) : outcome double :=
  match nth_error v i with
  | Some d => Returns d
  | None => Undefined
  end.

Definition NB_PUBLISH : nat := 3.

(** [Subtask::publishWaypoint_] and [Subtask::publishPose_], without the time
    stamps and the pauses. *)
Definition publishWaypoint_ (pos : Vector3d) (pub : string) : list event :=
  repeat (publish_point pub pos) NB_PUBLISH.

Definition publishPose_ (pos : Vector3d) (q : Quaterniond) (pub : string)
  : list event :=
  repeat (publish_pose pub pos q) NB_PUBLISH.

Definition MSG_SIZE : nat := 7.

(** Modelled from the spec: the default argument [theta = 0] of
    [rotateVectorInPlan_], declared in the missing header. *)
Definition theta_default : double := Fin 0.

(** [Subtask::parseROI_]: the object after the call and what was logged and
    published. *)
Definition parseROI_ (this : Subtask) (str : string)
  : outcome (Subtask * list event) :=
  '(waypointID, waypointsPos) <- splitString_ str "," EmptyString [] ;;
  let log :=
    if negb (Nat.eqb (List.length waypointsPos) MSG_SIZE)
    then [ROS_ERROR_size str MSG_SIZE (List.length waypointsPos)]
    else [] in
  if negb (isIdStored_ this waypointID) then
    w0 <- at_index waypointsPos 0 ;;
    w1 <- at_index waypointsPos 1 ;;
    w2 <- at_index waypointsPos 2 ;;
    w3 <- at_index waypointsPos 3 ;;
    w4 <- at_index waypointsPos 4 ;;
    w5 <- at_index waypointsPos 5 ;;
    let posStart := mkVector3d w0 w1 w2 in
    let posEnd := mkVector3d w3 w4 w5 in
    let q := rotateVectorInPlan_ (posStart, posEnd, robotPos_ this)
                                 (refVector_ this) theta_default in
    let roi := mkROI waypointID posStart posEnd q in
    Returns (set_deque this (dequeROI_ this ++ [roi]),
             log
             ++ publishWaypoint_ posStart "debug_waypoint_1"
             ++ publishWaypoint_ posEnd "debug_waypoint_2"
             ++ publishWaypoint_ (robotPos_ this) "debug_robot_base"
             ++ publishPose_ posStart q "debug_computedQuat"
             ++ [ROS_INFO_registered waypointID])
  else
    Returns (this, log ++ [ROS_INFO_already_registered waypointID]).

(** [Subtask::cbkROI_]. *)
Definition cbkROI_ (this : Subtask) (msg : string) : outcome (Subtask * list event) :=
  parseROI_ this msg.

(* ================================================================== *)
(** ** Vocabulary of the statements *)

(** A vector of three finite coordinates. *)
Definition vfin (x y z : R) : Vector3d := mkVector3d (Fin x) (Fin y) (Fin z).

Definition finite_vector (v : Vector3d) : bool :=
  is_finite (vx v) && is_finite (vy v) && is_finite (vz v).

Definition finite_points (pointsArray : Vector3d * Vector3d * Vector3d) : bool :=
  let '(p0, p1, p2) := pointsArray in
  finite_vector p0 && finite_vector p1 && finite_vector p2.



(** The object as the constructor leaves it: an empty deque. *)
Definition Subtask_new (robotPos refVector : Vector3d) : Subtask :=
  mkSubtask [] robotPos refVector.

(** The identifier [parseROI_] reads from a descriptor: the first token, or
    the initial empty string when there is none. *)
Definition id_field (str : string) : string :=
  match getline_tokens str "," with
  | [] => EmptyString
  | token :: _ => token
  end.

(** [str] has the identifier field [waypointID], followed by fields that
    [std::stod] converts, in order, to [waypointsPos]. *)
Definition descriptor (str : string) (waypointID : string)
    (waypointsPos : list double) : Prop :=
  exists tokens,
    getline_tokens str "," = waypointID :: tokens
    /\ Forall2 (fun token d => stod token = Returns d) tokens waypointsPos.

(** A descriptor of seven fields. *)
Definition valid_descriptor (str : string) (waypointID : string)
    (waypointsPos : list double) : Prop :=
  descriptor str waypointID waypointsPos /\ List.length waypointsPos = 6%nat.

(** The record [parseROI_] builds from an identifier and the coordinates. *)
Definition roi_of (this : Subtask) (waypointID : string)
    (waypointsPos : list double) : ROI :=
  let w i := nth i waypointsPos NaN in
  let posStart := mkVector3d (w 0%nat) (w 1%nat) (w 2%nat) in
  let posEnd := mkVector3d (w 3%nat) (w 4%nat) (w 5%nat) in
  mkROI waypointID posStart posEnd
        (rotateVectorInPlan_ (posStart, posEnd, robotPos_ this)
                             (refVector_ this) theta_default).

Definition is_error (e : event) : bool :=
  match e with ROS_ERROR_size _ _ _ => true | _ => false end.

(** The callback run on each message of a list, in order. *)
Fixpoint ingest_all (this : Subtask) (msgs : list string)
  : outcome (Subtask * list event) :=
  match msgs with
  | [] => Returns (this, [])
  | msg :: msgs' =>
      '(this', log) <- cbkROI_ this msg ;;
      '(this'', log') <- ingest_all this' msgs' ;;
      Returns (this'', log ++ log')
  end.

(** [n] successive calls of [getROI]: the records returned, in order, and the
    object afterwards. *)
Fixpoint consume (n : nat) (this : Subtask) : list ROI * Subtask :=
  match n with
  | O => ([], this)
  | S n' =>
      let '(roi, this') := getROI this in
      let '(rois, this'') := consume n' this' in
      (roi :: rois, this'')
  end.

(** The states the object goes through from [init], when every message that
    [parseROI_] returns from satisfies [accepted].  A call that throws leaves
    the object as it is, and a call with undefined behaviour has no state
    after it. *)
Inductive reachable_by (accepted : string -> Prop) (init : Subtask)
  : Subtask -> Prop :=
| reach_init : reachable_by accepted init init
| reach_parseROI this str this' log :
    reachable_by accepted init this ->
    accepted str ->
    parseROI_ this str = Returns (this', log) ->
    reachable_by accepted init this'
| reach_getROI this :
    reachable_by accepted init this ->
    reachable_by accepted init (snd (getROI this))
| reach_clearROI this :
    reachable_by accepted init this ->
    reachable_by accepted init (clearROI this).


(** What [parseROI_] logs and publishes when it registers a record, and what
    its size check logs. *)
Definition registration_events (this : Subtask) (roi : ROI) : list event :=
  publishWaypoint_ (posStart roi) "debug_waypoint_1"
  ++ publishWaypoint_ (posEnd roi) "debug_waypoint_2"
  ++ publishWaypoint_ (robotPos_ this) "debug_robot_base"
  ++ publishPose_ (posStart roi) (quat roi) "debug_computedQuat"
  ++ [ROS_INFO_registered (id roi)].

Definition size_events (str : string) (waypointsPos : list double) : list event :=
  if negb (Nat.eqb (List.length waypointsPos) MSG_SIZE)
  then [ROS_ERROR_size str MSG_SIZE (List.length waypointsPos)]
  else [].

(** The object after a call.  The only call of [parseROI_] that throws is
    [std::stod], inside [splitString_], before [dequeROI_] is touched: an
    exception leaves the object as it was.  After undefined behaviour nothing
    is known. *)
Definition object_after (this : Subtask) (o : outcome (Subtask * list event))
  : option Subtask :=
  match o with
  | Returns (this', _) => Some this'
  | Throws _ => Some this
  | Undefined => None
  end.

(** A descriptor paired with the identifier and the coordinates it parses to. *)
Definition parsed : Type := string * (string * list double).
Definition parsed_str (d : parsed) : string := fst d.
Definition parsed_id (d : parsed) : string := fst (snd d).
Definition parsed_pos (d : parsed) : list double := snd (snd d).
Definition parsed_valid (d : parsed) : Prop :=
  valid_descriptor (parsed_str d) (parsed_id d) (parsed_pos d).

(* ================================================================== *)
(** ** The helpers of the kinematics tests *)

Module TestHelpers.

Local Open Scope double_scope.

(** Unary minus, and [a < b] (false when either side is NaN). *)
Definition dneg (a : double) : double :=
  match a with
  | Fin r => Fin (- r)
  | PInf => NInf
  | NInf => PInf
  | NaN => NaN
  end.

Definition dlt (a b : double) : bool := dgt b a.

(** [q.normalized()]: the four coefficients as a vector, normalized like a
    [Vector3d] (left as they are when the squared norm is not positive). *)
Definition qnormalized (q : Quaterniond) : Quaterniond :=
  let z := qx q * qx q + qy q * qy q + qz q * qz q + qw q * qw q in
  if dgt z (Fin 0)
  then mkQuaterniond (qw q / dsqrt z) (qx q / dsqrt z) (qy q / dsqrt z) (qz q / dsqrt z)
  else q.

(** [q.conjugate()]. *)
Definition conjugate (q : Quaterniond) : Quaterniond :=
  mkQuaterniond (qw q) (dneg (qx q)) (dneg (qy q)) (dneg (qz q)).

(** [a * b] on quaternions. *)
Definition qmul (a b : Quaterniond) : Quaterniond :=
  mkQuaterniond
    (qw a * qw b - qx a * qx b - qy a * qy b - qz a * qz b)
    (qw a * qx b + qx a * qw b + qy a * qz b - qz a * qy b)
    (qw a * qy b + qy a * qw b + qz a * qx b - qx a * qz b)
    (qw a * qz b + qz a * qw b + qx a * qy b - qy a * qx b).

(** [Eigen::Matrix3d], by rows. *)
Record Matrix3d : Type :=
  mkMatrix3d { m00 : double; m01 : double; m02 : double;
               m10 : double; m11 : double; m12 : double;
               m20 : double; m21 : double; m22 : double }.

(** [q.toRotationMatrix()]. *)
Definition toRotationMatrix (q : Quaterniond) : Matrix3d :=
  let tx := Fin 2 * qx q in
  let ty := Fin 2 * qy q in
  let tz := Fin 2 * qz q in
  let twx := tx * qw q in
  let twy := ty * qw q in
  let twz := tz * qw q in
  let txx := tx * qx q in
  let txy := ty * qx q in
  let txz := tz * qx q in
  let tyy := ty * qy q in
  let tyz := tz * qy q in
  let tzz := tz * qz q in
  mkMatrix3d (Fin 1 - (tyy + tzz)) (txy - twz) (txz + twy)
             (txy + twz) (Fin 1 - (txx + tzz)) (tyz - twx)
             (txz - twy) (tyz + twx) (Fin 1 - (txx + tyy)).

(** [a - b] and [m.norm()] (the Frobenius norm, summed by columns). *)
Definition msub (a b : Matrix3d) : Matrix3d :=
  mkMatrix3d (m00 a - m00 b) (m01 a - m01 b) (m02 a - m02 b)
             (m10 a - m10 b) (m11 a - m11 b) (m12 a - m12 b)
             (m20 a - m20 b) (m21 a - m21 b) (m22 a - m22 b).

Definition mnorm (m : Matrix3d) : double :=
  dsqrt (m00 m * m00 m + m10 m * m10 m + m20 m * m20 m
         + m01 m * m01 m + m11 m * m11 m + m21 m * m21 m
         + m02 m * m02 m + m12 m * m12 m + m22 m * m22 m).

(** [calculateRotationDifference] (both test files). *)
Definition calculateRotationDifference (q1 q2 : Quaterniond) : double :=
  let q1_normalized := qnormalized q1 in
  let q2_normalized := qnormalized q2 in
  let q_rel := qmul (conjugate q1_normalized) q2_normalized in
  let w_rel := qw q_rel in
  let theta := Fin 2 * dacos w_rel in
  theta.

(** [areQuaternionsEquivalent] and [arePositionsEquivalent]: whether the
    [EXPECT_LT] of the helper holds. *)
Definition areQuaternionsEquivalent (q1 q2 : Quaterniond) (tolerance : double) : bool :=
  let rot1 := toRotationMatrix q1 in
  let rot2 := toRotationMatrix q2 in
  dlt (mnorm (msub rot1 rot2)) tolerance.

Definition arePositionsEquivalent (p1 p2 : Vector3d) (tolerance : double) : bool :=
  dlt (norm (vsub p1 p2)) tolerance.

Definition MAX_TRIES : nat := 100.

(** What [generateReachableWaypoint] ends with: a waypoint, or
    [std::runtime_error]. *)
Inductive generated (W : Type) : Type :=
| Reachable (waypoint : W)
| runtime_error (message_tries : nat).

Arguments Reachable {W} waypoint.
Arguments runtime_error {W} message_tries.

(** The loop of [generateReachableWaypoint].  [draw n] is the waypoint drawn at
    the [n]-th pass and whether the inverse kinematics accepted it; [tries] is
    the counter before the pass.  The loop has no bound of its own: [fuel]
    bounds the passes of the model, and [None] means it ran out. *)
Fixpoint generateReachableWaypoint_loop {W : Type} (draw : nat -> W * bool)
    (fuel tries : nat) : option (generated W) :=
  match fuel with
  | O => None
  | S fuel' =>
      let tries := S tries in
      let '(waypoint, isValid) := draw tries in
      if isValid then Some (Reachable waypoint)
      else if Nat.ltb MAX_TRIES tries then Some (runtime_error MAX_TRIES)
      else generateReachableWaypoint_loop draw fuel' tries
  end.

Definition generateReachableWaypoint {W : Type} (draw : nat -> W * bool) (fuel : nat)
  : option (generated W) :=
  generateReachableWaypoint_loop draw fuel 0.

End TestHelpers.

Export TestHelpers.

(* ================================================================== *)
(** ** Vocabulary of the further properties *)

(** A message sent to a debug topic. *)
Definition is_publish (e : event) : bool :=
  match e with
  | publish_point _ _ | publish_pose _ _ _ => true
  | _ => false
  end.

(** The descriptors of a list whose identifier is neither in [seen] nor
    carried by an earlier descriptor of the list. *)
Fixpoint first_occurrences (seen : list string) (ds : list parsed) : list parsed :=
  match ds with
  | [] => []
  | d :: ds' =>
      if existsb (String.eqb (parsed_id d)) seen then first_occurrences seen ds'
      else d :: first_occurrences (seen ++ [parsed_id d]) ds'
  end.

(** [str] without its last character when that is the delimiter. *)
Fixpoint drop_last_delimiter (str : string) (delimiter : ascii) : string :=
  match str with
  | EmptyString => EmptyString
  | String c EmptyString =>
      if Ascii.eqb c delimiter then EmptyString else str
  | String c rest => String c (drop_last_delimiter rest delimiter)
  end.

(** Does [c] occur in [s]? *)
Fixpoint contains (c : ascii) (s : string) : bool :=
  match s with
  | EmptyString => false
  | String c' s' => Ascii.eqb c' c || contains c s'
  end.

(** [std::stod] converts the token. *)
Definition converts (token : string) : Prop := exists d, stod token = Returns d.

(** A quaternion of four finite coefficients. *)
Definition qfin (w x y z : R) : Quaterniond :=
  mkQuaterniond (Fin w) (Fin x) (Fin y) (Fin z).

Definition finite_quaternion (q : Quaterniond) : bool :=
  is_finite (qw q) && is_finite (qx q) && is_finite (qy q) && is_finite (qz q).

(** [-q], coefficient by coefficient. *)
Definition qneg (q : Quaterniond) : Quaterniond :=
  mkQuaterniond (dneg (qw q)) (dneg (qx q)) (dneg (qy q)) (dneg (qz q)).

(** Every coordinate of [v] is a finite number of magnitude at most [bound]. *)
Definition coordinates_within (bound : R) (v : Vector3d) : Prop :=
  exists x y z : R,
    v = vfin x y z
    /\ (- bound <= x <= bound)%R /\ (- bound <= y <= bound)%R
    /\ (- bound <= z <= bound)%R.

(** Every coefficient of [q] is a finite number of magnitude at most [bound]. *)
Definition coefficients_within (bound : R) (q : Quaterniond) : Prop :=
  exists w x y z : R,
    q = qfin w x y z
    /\ (- bound <= w <= bound)%R /\ (- bound <= x <= bound)%R
    /\ (- bound <= y <= bound)%R /\ (- bound <= z <= bound)%R.





(** Some coordinate is NaN. *)
Definition has_nan (v : Vector3d) : bool :=
  is_nan (vx v) || is_nan (vy v) || is_nan (vz v).


(** Three descriptors, the third with the identifier of the first. *)
Definition example_parsed : list parsed :=
  [("a,1,2,3,4,5,6", ("a", [Fin 1; Fin 2; Fin 3; Fin 4; Fin 5; Fin 6]));
   ("b,0,0,0,1,0,0", ("b", [Fin 0; Fin 0; Fin 0; Fin 1; Fin 0; Fin 0]));
   ("a,6,5,4,3,2,1", ("a", [Fin 6; Fin 5; Fin 4; Fin 3; Fin 2; Fin 1]))]%string.

(* ================================================================== *)
(** * Properties *)

(** ** Arithmetic on finite doubles *)

Local Open Scope R_scope.

Ltac case_real :=
  match goal with
  | |- context [Req_dec_T ?a ?b] => destruct (Req_dec_T a b)
  | |- context [Rlt_dec ?a ?b] => destruct (Rlt_dec a b)
  end.

Lemma vfin_eq (x y z x' y' z' : R) :
  x = x' -> y = y' -> z = z' -> vfin x y z = vfin x' y' z'.
Proof. intros -> -> ->; reflexivity. Qed.

Lemma ddiv_fin (a b : R) : b <> 0 -> ddiv (Fin a) (Fin b) = Fin (a / b).
Proof. intros Hb; simpl; case_real; [contradiction | reflexivity]. Qed.


Lemma half_fin (a : R) : ddiv (Fin a) (Fin 2) = Fin (a / 2).
Proof. apply ddiv_fin; lra. Qed.

Lemma dsqrt_fin (a : R) : 0 <= a -> dsqrt (Fin a) = Fin (sqrt a).
Proof. intros Ha; simpl; case_real; [lra | reflexivity]. Qed.

Lemma dacos_fin (a : R) : -1 <= a <= 1 -> dacos (Fin a) = Fin (acos a).
Proof. intros Ha; simpl; repeat case_real; try lra; reflexivity. Qed.

Lemma dgt_fin_pos (a : R) : 0 < a -> dgt (Fin a) (Fin 0) = true.
Proof. intros Ha; simpl; case_real; [reflexivity | contradiction]. Qed.

Lemma dgt_fin_nonpos (a : R) : a <= 0 -> dgt (Fin a) (Fin 0) = false.
Proof. intros Ha; simpl; case_real; [lra | reflexivity]. Qed.

Lemma finite_vector_vfin (v : Vector3d) :
  finite_vector v = true -> exists x y z, v = vfin x y z.
Proof.
  destruct v as [[x| | |] [y| | |] [z| | |]]; try discriminate.
  intros _; exists x, y, z; reflexivity.
Qed.

Lemma sum_squares_nonneg (x y z : R) : 0 <= x * x + y * y + z * z.
Proof. nra. Qed.

(** ** Eigen on finite vectors *)

Lemma cross_vfin (a b c x y z : R) :
  cross (vfin a b c) (vfin x y z)
  = vfin (b * z - c * y) (c * x - a * z) (a * y - b * x).
Proof. reflexivity. Qed.

Lemma dot_vfin (a b c x y z : R) :
  dot (vfin a b c) (vfin x y z) = Fin (a * x + b * y + c * z).
Proof. reflexivity. Qed.

Lemma squaredNorm_vfin (x y z : R) :
  squaredNorm (vfin x y z) = Fin (x * x + y * y + z * z).
Proof. reflexivity. Qed.

Lemma norm_vfin (x y z : R) :
  norm (vfin x y z) = Fin (sqrt (x * x + y * y + z * z)).
Proof.
  unfold norm; rewrite squaredNorm_vfin. apply dsqrt_fin, sum_squares_nonneg.
Qed.

Lemma vquot_vfin (x y z d : R) :
  d <> 0 -> vquot (vfin x y z) (Fin d) = vfin (x / d) (y / d) (z / d).
Proof.
  intros Hd. unfold vquot, vfin; simpl vx; simpl vy; simpl vz.
  rewrite !ddiv_fin by assumption. reflexivity.
Qed.

Lemma normalized_vfin_pos (x y z : R) :
  let s := x * x + y * y + z * z in
  0 < s -> normalized (vfin x y z) = vfin (x / sqrt s) (y / sqrt s) (z / sqrt s).
Proof.
  intros s Hs. unfold normalized. rewrite squaredNorm_vfin. fold s.
  rewrite dgt_fin_pos by assumption.
  rewrite dsqrt_fin by lra.
  pose proof (sqrt_lt_R0 s Hs).
  apply vquot_vfin; lra.
Qed.

Lemma normalized_vfin_zero (x y z : R) :
  x * x + y * y + z * z <= 0 -> normalized (vfin x y z) = vfin x y z.
Proof.
  intros Hs. unfold normalized. rewrite squaredNorm_vfin.
  rewrite dgt_fin_nonpos by assumption. reflexivity.
Qed.

Lemma normalized_vfin_finite (x y z : R) :
  exists x' y' z', normalized (vfin x y z) = vfin x' y' z'.
Proof.
  destruct (Rlt_dec 0 (x * x + y * y + z * z)) as [Hs | Hs].
  - rewrite normalized_vfin_pos by assumption. eauto.
  - rewrite normalized_vfin_zero by lra. eauto.
Qed.

Lemma transformVector_fin (w a b c x y z : R) :
  transformVector (mkQuaterniond (Fin w) (Fin a) (Fin b) (Fin c)) (vfin x y z)
  = vfin (x + w * ((b * z - c * y) + (b * z - c * y))
            + (b * ((a * y - b * x) + (a * y - b * x))
               - c * ((c * x - a * z) + (c * x - a * z))))
         (y + w * ((c * x - a * z) + (c * x - a * z))
            + (c * ((b * z - c * y) + (b * z - c * y))
               - a * ((a * y - b * x) + (a * y - b * x))))
         (z + w * ((a * y - b * x) + (a * y - b * x))
            + (a * ((c * x - a * z) + (c * x - a * z))
               - b * ((b * z - c * y) + (b * z - c * y)))).
Proof. reflexivity. Qed.

Lemma vsub_vfin (a b c x y z : R) :
  vsub (vfin a b c) (vfin x y z) = vfin (a - x) (b - y) (c - z).
Proof. reflexivity. Qed.

(** ** In exact arithmetic the acos argument of the solver stays in [-1,1] *)

Lemma ratio_bounds (d m : R) : 0 < m -> - m <= d <= m -> -1 <= d / m <= 1.
Proof.
  intros Hm Hd.
  assert (H1 : 0 < / m) by (apply Rinv_0_lt_compat; lra).
  assert (H2 : m * / m = 1) by (field; lra).
  unfold Rdiv; split; nra.
Qed.

Lemma lagrange (a b c x y z : R) :
  (b * z - c * y) * (b * z - c * y) + (c * x - a * z) * (c * x - a * z)
  + (a * y - b * x) * (a * y - b * x)
  = (a * a + b * b + c * c) * (x * x + y * y + z * z)
    - (a * x + b * y + c * z) * (a * x + b * y + c * z).
Proof. ring. Qed.

Lemma cauchy_schwarz_ratio (a b c x y z : R) :
  0 < a * a + b * b + c * c -> 0 < x * x + y * y + z * z ->
  -1 <= (a * x + b * y + c * z)
        / (sqrt (a * a + b * b + c * c) * sqrt (x * x + y * y + z * z)) <= 1.
Proof.
  intros Hr Hv.
  pose proof (lagrange a b c x y z) as HL.
  pose proof (sum_squares_nonneg (b * z - c * y) (c * x - a * z) (a * y - b * x)) as HS.
  set (rr := a * a + b * b + c * c) in *.
  set (vv := x * x + y * y + z * z) in *.
  set (d := a * x + b * y + c * z) in *.
  pose proof (sqrt_lt_R0 rr Hr) as HA.
  pose proof (sqrt_lt_R0 vv Hv) as HB.
  pose proof (sqrt_sqrt rr (Rlt_le _ _ Hr)) as HA2.
  pose proof (sqrt_sqrt vv (Rlt_le _ _ Hv)) as HB2.
  assert (Hm : 0 < sqrt rr * sqrt vv) by nra.
  assert (Hsq : d * d <= (sqrt rr * sqrt vv) * (sqrt rr * sqrt vv)).
  { replace ((sqrt rr * sqrt vv) * (sqrt rr * sqrt vv))
      with ((sqrt rr * sqrt rr) * (sqrt vv * sqrt vv)) by ring.
    rewrite HA2, HB2. lra. }
  apply ratio_bounds; [assumption | split; nra].
Qed.

Lemma cross_nonzero_factors (a b c x y z : R) :
  0 < (b * z - c * y) * (b * z - c * y) + (c * x - a * z) * (c * x - a * z)
      + (a * y - b * x) * (a * y - b * x) ->
  0 < a * a + b * b + c * c /\ 0 < x * x + y * y + z * z.
Proof.
  rewrite lagrange. intros H.
  pose proof (sum_squares_nonneg a b c) as Hr.
  pose proof (sum_squares_nonneg x y z) as Hv.
  set (rr := a * a + b * b + c * c) in *.
  set (vv := x * x + y * y + z * z) in *.
  set (d := a * x + b * y + c * z) in *.
  assert (Hd : 0 <= d * d) by nra.
  split.
  - destruct (Rle_lt_dec rr 0) as [Hle | Hlt]; [| assumption].
    assert (rr = 0) by lra. subst rr. rewrite H0 in H. lra.
  - destruct (Rle_lt_dec vv 0) as [Hle | Hlt]; [| assumption].
    assert (vv = 0) by lra. subst vv. rewrite H0 in H. lra.
Qed.

(** ** The solver on finite inputs *)


(** With [theta = 0] the first rotation is the identity. *)
Lemma rotatedVectPlan_theta0 (p0 p1 p2 : Vector3d) :
  finite_points (p0, p1, p2) = true ->
  rotatedVectPlan (p0, p1, p2) (Fin 0) = vsub p0 p1.
Proof.
  unfold finite_points. rewrite !andb_true_iff. intros [[H0 H1] H2].
  destruct (finite_vector_vfin _ H0) as (a0 & b0 & c0 & ->).
  destruct (finite_vector_vfin _ H1) as (a1 & b1 & c1 & ->).
  destruct (finite_vector_vfin _ H2) as (a2 & b2 & c2 & ->).
  unfold rotatedVectPlan. rewrite !vsub_vfin, cross_vfin.
  destruct (normalized_vfin_finite
              ((b0 - b1) * (c0 - c2) - (c0 - c1) * (b0 - b2))
              ((c0 - c1) * (a0 - a2) - (a0 - a1) * (c0 - c2))
              ((a0 - a1) * (b0 - b2) - (b0 - b1) * (a0 - a2)))
    as (nx & ny & nz & ->).
  rewrite half_fin. cbn [vx vy vz vfin dcos dsin dmul].
  rewrite transformVector_fin.
  replace (0 / 2) with 0 by lra. rewrite cos_0, sin_0.
  apply vfin_eq; ring.
Qed.


(** The quaternion of the second half of the solver when the reference vector
    and the rotated edge vector are finite and not parallel. *)
Lemma rotateVectorInPlan_closed_form
    (pointsArray : Vector3d * Vector3d * Vector3d) (theta : double)
    (a b c x y z : R) :
  rotatedVectPlan pointsArray theta = vfin x y z ->
  let s := (b * z - c * y) * (b * z - c * y) + (c * x - a * z) * (c * x - a * z)
           + (a * y - b * x) * (a * y - b * x) in
  let angle := acos ((a * x + b * y + c * z)
                     / (sqrt (a * a + b * b + c * c) * sqrt (x * x + y * y + z * z))) in
  0 < s ->
  rotateVectorInPlan_ pointsArray (vfin a b c) theta
  = mkQuaterniond (Fin (cos (angle / 2)))
                  (Fin ((b * z - c * y) / sqrt s * sin (angle / 2)))
                  (Fin ((c * x - a * z) / sqrt s * sin (angle / 2)))
                  (Fin ((a * y - b * x) / sqrt s * sin (angle / 2))).
Proof.
  intros Hrot s angle Hs.
  destruct (cross_nonzero_factors a b c x y z Hs) as [Hr Hv].
  unfold rotateVectorInPlan_. rewrite Hrot.
  rewrite cross_vfin, normalized_vfin_pos by exact Hs. fold s.
  rewrite dot_vfin, !norm_vfin.
  cbn [dmul].
  pose proof (sqrt_lt_R0 _ Hr). pose proof (sqrt_lt_R0 _ Hv).
  rewrite ddiv_fin by nra.
  rewrite dacos_fin by (apply cauchy_schwarz_ratio; assumption).
  fold angle. rewrite half_fin. reflexivity.
Qed.





(** ** The tokenizer *)

Lemma getline_tokens_extract (str : string) (delimiter : ascii) :
  getline_tokens str delimiter
  = match extract str delimiter with
    | (token, Some rest) => token :: getline_tokens rest delimiter
    | (EmptyString, None) => []
    | (token, None) => [token]
    end.
Proof.
  induction str as [| c str IH]; [reflexivity |].
  simpl. destruct (Ascii.eqb c delimiter); [reflexivity |].
  rewrite IH. destruct (extract str delimiter) as [token [rest |]];
    destruct token; reflexivity.
Qed.

Lemma extract_shorter (str : string) (delimiter : ascii) token rest :
  extract str delimiter = (token, Some rest) ->
  (String.length rest < String.length str)%nat.
Proof.
  revert token. induction str as [| c str IH]; intros token; simpl.
  - discriminate.
  - destruct (Ascii.eqb c delimiter).
    + intros [= _ <-]. lia.
    + destruct (extract str delimiter) as [token' [rest' |]] eqn:E.
      * intros [= _ <-]. specialize (IH _ eq_refl). lia.
      * discriminate.
Qed.

(** The loop over [getline] terminates within [length str + 1] calls and
    yields [getline_tokens str]. *)
Lemma getline_loop_tokens (fuel : nat) (str : string) (delimiter : ascii) :
  (String.length str < fuel)%nat ->
  getline_loop fuel (stringstream_of str) delimiter = getline_tokens str delimiter.
Proof.
  revert str. induction fuel as [| fuel IH]; intros str Hlen; [lia |].
  rewrite getline_tokens_extract.
  cbn [getline_loop getline stringstream_of unread eofbit failbit orb].
  destruct (extract str delimiter) as [token [rest |]] eqn:E.
  - apply extract_shorter in E.
    destruct token; (f_equal; apply IH; lia).
  - destruct token as [| c token]; [reflexivity |].
    destruct fuel as [| fuel].
    + destruct str; [discriminate E | simpl in Hlen; lia].
    + reflexivity.
Qed.

(** ** Parsing a descriptor *)

Lemma splitString_loop_coordinates (tokens : list string) (ws : list double)
    (waypointID : string) (acc : list double) :
  Forall2 (fun token d => stod token = Returns d) tokens ws ->
  splitString_loop tokens true waypointID acc = Returns (waypointID, acc ++ ws).
Proof.
  intros H. revert acc. induction H as [| token d tokens ws Hd _ IH]; intros acc.
  - simpl. rewrite app_nil_r. reflexivity.
  - simpl. rewrite Hd. simpl. rewrite IH, <- app_assoc. reflexivity.
Qed.

Lemma splitString_descriptor (str waypointID : string) (ws : list double) :
  descriptor str waypointID ws ->
  splitString_ str "," EmptyString [] = Returns (waypointID, ws).
Proof.
  intros (tokens & Htok & Hws). unfold splitString_. rewrite Htok. simpl.
  apply (splitString_loop_coordinates tokens ws waypointID [] Hws).
Qed.

(** A coordinate field that [stod] rejects: the exception leaves the loop. *)
Lemma splitString_loop_throws (tokens : list string) (waypointID : string)
    (acc : list double) :
  (exists token, In token tokens /\ exists e, stod token = Throws e) ->
  (forall token, In token tokens -> stod token <> Undefined) ->
  exists e, splitString_loop tokens true waypointID acc = Throws e.
Proof.
  revert acc. induction tokens as [| token tokens IH]; intros acc (bad & Hin & e & Hbad) Hdef.
  - destruct Hin.
  - simpl. destruct (stod token) as [d | e' |] eqn:E.
    + simpl. apply IH.
      * destruct Hin as [-> | Hin]; [congruence | eauto].
      * intros t Ht. apply Hdef. right. exact Ht.
    + simpl. eauto.
    + exfalso. apply (Hdef token); [left; reflexivity | exact E].
Qed.

Lemma stod_defined (str : string) : stod str <> Undefined.
Proof.
  unfold stod. destruct (strtod str) as [[q | negative |] |]; try discriminate.
  destruct (erange q); discriminate.
Qed.

Lemma at_index_nth (ws : list double) (i : nat) :
  (i < List.length ws)%nat -> at_index ws i = Returns (nth i ws NaN).
Proof.
  intros Hi. unfold at_index.
  destruct (nth_error ws i) as [d |] eqn:E.
  - rewrite (nth_error_nth _ _ _ E). reflexivity.
  - apply nth_error_None in E. lia.
Qed.

(** A new identifier with at least six coordinates: one record is appended. *)
Lemma parseROI_fresh (this : Subtask) (str waypointID : string) (ws : list double) :
  descriptor str waypointID ws ->
  (6 <= List.length ws)%nat ->
  isIdStored_ this waypointID = false ->
  parseROI_ this str
  = Returns (set_deque this (dequeROI_ this ++ [roi_of this waypointID ws]),
             size_events str ws
             ++ registration_events this (roi_of this waypointID ws)).
Proof.
  intros Hd Hlen Hnew. unfold parseROI_.
  rewrite (splitString_descriptor _ _ _ Hd). cbn [bind].
  rewrite Hnew. cbn [negb].
  rewrite !at_index_nth by lia. reflexivity.
Qed.

(** A new identifier with fewer than six coordinates: the vector is read past
    its end. *)
Lemma parseROI_short (this : Subtask) (str waypointID : string) (ws : list double) :
  descriptor str waypointID ws ->
  (List.length ws < 6)%nat ->
  isIdStored_ this waypointID = false ->
  parseROI_ this str = Undefined.
Proof.
  intros Hd Hlen Hnew. unfold parseROI_.
  rewrite (splitString_descriptor _ _ _ Hd). cbn [bind].
  rewrite Hnew. cbn [negb].
  destruct ws as [| w0 [| w1 [| w2 [| w3 [| w4 [| w5 ws]]]]]];
    try reflexivity.
  simpl in Hlen. lia.
Qed.

(** An identifier that is stored already: the object is left as it is. *)
Lemma parseROI_stored (this : Subtask) (str waypointID : string) (ws : list double) :
  descriptor str waypointID ws ->
  isIdStored_ this waypointID = true ->
  parseROI_ this str
  = Returns (this, size_events str ws ++ [ROS_INFO_already_registered waypointID]).
Proof.
  intros Hd Hold. unfold parseROI_.
  rewrite (splitString_descriptor _ _ _ Hd). cbn [bind].
  rewrite Hold. reflexivity.
Qed.


(** ** What a returning call did *)

Lemma splitString_loop_keeps_id (tokens : list string) (waypointID wid : string)
    (acc ws : list double) :
  splitString_loop tokens true waypointID acc = Returns (wid, ws) ->
  wid = waypointID.
Proof.
  revert acc. induction tokens as [| token tokens IH]; intros acc; simpl.
  - intros [= <- _]. reflexivity.
  - destruct (stod token) as [d | e |]; simpl; try discriminate. apply IH.
Qed.

Lemma splitString_id_field (str wid : string) (ws : list double) :
  splitString_ str "," EmptyString [] = Returns (wid, ws) -> wid = id_field str.
Proof.
  unfold splitString_, id_field.
  destruct (getline_tokens str ",") as [| token tokens]; simpl.
  - intros [= <- _]. reflexivity.
  - apply splitString_loop_keeps_id.
Qed.

Lemma at_index_returns (ws : list double) (i : nat) (d : double) :
  at_index ws i = Returns d -> (i < List.length ws)%nat /\ d = nth i ws NaN.
Proof.
  unfold at_index. destruct (nth_error ws i) as [d' |] eqn:E; [| discriminate].
  intros [= <-]. split.
  - apply nth_error_Some. congruence.
  - symmetry. apply nth_error_nth. exact E.
Qed.

(** A call that returns either found the identifier stored and changed
    nothing, or appended the record of the first six coordinates. *)
Lemma parseROI_returns (this this' : Subtask) (str : string) (log : list event) :
  parseROI_ this str = Returns (this', log) ->
  (isIdStored_ this (id_field str) = true /\ this' = this)
  \/ (isIdStored_ this (id_field str) = false
      /\ exists ws, (6 <= List.length ws)%nat
         /\ this' = set_deque this (dequeROI_ this ++ [roi_of this (id_field str) ws])).
Proof.
  unfold parseROI_.
  destruct (splitString_ str "," EmptyString []) as [[wid ws] | e |] eqn:Hsplit;
    cbn [bind]; try discriminate.
  apply splitString_id_field in Hsplit. subst wid.
  destruct (isIdStored_ this (id_field str)); cbn [negb].
  - intros [= <- _]. left. split; reflexivity.
  - destruct (at_index ws 0) as [w0 | |] eqn:E0; cbn [bind]; try discriminate.
    destruct (at_index ws 1) as [w1 | |] eqn:E1; cbn [bind]; try discriminate.
    destruct (at_index ws 2) as [w2 | |] eqn:E2; cbn [bind]; try discriminate.
    destruct (at_index ws 3) as [w3 | |] eqn:E3; cbn [bind]; try discriminate.
    destruct (at_index ws 4) as [w4 | |] eqn:E4; cbn [bind]; try discriminate.
    destruct (at_index ws 5) as [w5 | |] eqn:E5; cbn [bind]; try discriminate.
    intros [= <- _]. right. split; [reflexivity |].
    exists ws.
    apply at_index_returns in E0, E1, E2, E3, E4, E5.
    destruct E0 as [_ ->], E1 as [_ ->], E2 as [_ ->], E3 as [_ ->],
             E4 as [_ ->], E5 as [H5 ->].
    split; [lia | reflexivity].
Qed.

(** ** Invariants of the reachable states *)

Lemma roi_of_same_members (this this' : Subtask) (wid : string) (ws : list double) :
  robotPos_ this' = robotPos_ this -> refVector_ this' = refVector_ this ->
  roi_of this' wid ws = roi_of this wid ws.
Proof. intros Hp Hr. unfold roi_of. rewrite Hp, Hr. reflexivity. Qed.

(** The reference members never change, and every stored record is the one
    [parseROI_] built from an accepted descriptor. *)
Lemma reachable_by_records (accepted : string -> Prop) (P : ROI -> Prop)
    (init : Subtask) :
  dequeROI_ init = [] ->
  (forall str ws, accepted str -> (6 <= List.length ws)%nat ->
                  P (roi_of init (id_field str) ws)) ->
  forall this, reachable_by accepted init this ->
    robotPos_ this = robotPos_ init
    /\ refVector_ this = refVector_ init
    /\ Forall P (dequeROI_ this).
Proof.
  intros Hinit HP this Hreach.
  induction Hreach as [| this str this' log _ IH Hacc Hparse | this _ IH | this _ IH].
  - rewrite Hinit. repeat split; constructor.
  - destruct IH as (Hp & Hr & Hall).
    apply parseROI_returns in Hparse.
    destruct Hparse as [[_ ->] | [_ (ws & Hlen & ->)]].
    + repeat split; assumption.
    + cbn [set_deque robotPos_ refVector_ dequeROI_].
      repeat split; try assumption.
      apply Forall_app. split; [assumption |].
      constructor; [| constructor].
      rewrite (roi_of_same_members init this _ _ Hp Hr). apply HP; assumption.
  - destruct IH as (Hp & Hr & Hall). unfold getROI.
    destruct (dequeROI_ this) as [| roi rest] eqn:E; cbn [snd].
    + rewrite E. repeat split; assumption.
    + cbn [set_deque robotPos_ refVector_ dequeROI_].
      repeat split; try assumption. inversion Hall; assumption.
  - destruct IH as (Hp & Hr & Hall).
    cbn [clearROI set_deque robotPos_ refVector_ dequeROI_].
    repeat split; try assumption. constructor.
Qed.

Lemma isIdStored_In (this : Subtask) (wid : string) :
  isIdStored_ this wid = true <-> In wid (map id (dequeROI_ this)).
Proof.
  unfold isIdStored_. rewrite existsb_exists, in_map_iff.
  split; intros (roi & H1 & H2).
  - exists roi. split; [apply String.eqb_eq; assumption | assumption].
  - exists roi. split; [assumption | apply String.eqb_eq; assumption].
Qed.

Lemma isIdStored_false (this : Subtask) (wid : string) :
  isIdStored_ this wid = false <-> ~ In wid (map id (dequeROI_ this)).
Proof.
  rewrite <- isIdStored_In. destruct (isIdStored_ this wid).
  - split; [discriminate | intros H; exfalso; apply H; reflexivity].
  - split; [intros _; discriminate | reflexivity].
Qed.

(** Stored identifiers are pairwise different. *)
Lemma reachable_by_NoDup (accepted : string -> Prop) (init this : Subtask) :
  dequeROI_ init = [] ->
  reachable_by accepted init this ->
  NoDup (map id (dequeROI_ this)).
Proof.
  intros Hinit Hreach.
  induction Hreach as [| this str this' log _ IH Hacc Hparse | this _ IH | this _ IH].
  - rewrite Hinit. constructor.
  - apply parseROI_returns in Hparse.
    destruct Hparse as [[_ ->] | [Hnew (ws & Hlen & ->)]]; [assumption |].
    cbn [set_deque dequeROI_]. rewrite map_app. cbn [map roi_of id].
    apply isIdStored_false in Hnew.
    apply NoDup_app; repeat split.
    + assumption.
    + constructor; [intros [] | constructor].
    + intros x Hx [<- | []]. contradiction.
  - unfold getROI. destruct (dequeROI_ this) as [| roi rest] eqn:E; cbn [snd].
    + rewrite E. constructor.
    + cbn [set_deque dequeROI_]. cbn [map] in IH. inversion IH; assumption.
  - cbn [clearROI set_deque dequeROI_ map]. constructor.
Qed.

(** ** The solver in exact arithmetic: normalisation *)




Lemma sqrt2_half : 1 / sqrt 2 * (1 / sqrt 2) = 1 / 2.
Proof.
  pose proof (sqrt_lt_R0 2 ltac:(lra)) as Hk.
  pose proof (sqrt_sqrt 2 ltac:(lra)) as Hk2.
  replace (1 / sqrt 2 * (1 / sqrt 2)) with (1 / (sqrt 2 * sqrt 2)) by (field; lra).
  rewrite Hk2. reflexivity.
Qed.

(* ================================================================== *)
(** ** Descriptors used as examples *)

Ltac parse_fields tokens :=
  exists tokens; split; [reflexivity | repeat constructor].

Lemma descriptor_a :
  valid_descriptor "a,1,2,3,4,5,6" "a" [Fin 1; Fin 2; Fin 3; Fin 4; Fin 5; Fin 6].
Proof. split; [| reflexivity]. parse_fields ["1"; "2"; "3"; "4"; "5"; "6"]%string. Qed.

Lemma descriptor_a_again :
  valid_descriptor "a,6,5,4,3,2,1" "a" [Fin 6; Fin 5; Fin 4; Fin 3; Fin 2; Fin 1].
Proof. split; [| reflexivity]. parse_fields ["6"; "5"; "4"; "3"; "2"; "1"]%string. Qed.

Lemma descriptor_b :
  valid_descriptor "b,0,0,0,1,0,0" "b" [Fin 0; Fin 0; Fin 0; Fin 1; Fin 0; Fin 0].
Proof. split; [| reflexivity]. parse_fields ["0"; "0"; "0"; "1"; "0"; "0"]%string. Qed.

Lemma descriptor_c :
  valid_descriptor "c,-1,2.5,3e2,4,5,6" "c"
                   [Fin (-1); Fin (5 / 2); Fin 300; Fin 4; Fin 5; Fin 6].
Proof.
  split; [| reflexivity].
  parse_fields ["-1"; "2.5"; "3e2"; "4"; "5"; "6"]%string.
Qed.

Lemma descriptor_empty_id :
  valid_descriptor ",1,2,3,4,5,6" "" [Fin 1; Fin 2; Fin 3; Fin 4; Fin 5; Fin 6].
Proof. split; [| reflexivity]. parse_fields ["1"; "2"; "3"; "4"; "5"; "6"]%string. Qed.



Lemma descriptor_five_numbers :
  descriptor "a,1,2,3,4,5" "a" [Fin 1; Fin 2; Fin 3; Fin 4; Fin 5].
Proof. parse_fields ["1"; "2"; "3"; "4"; "5"]%string. Qed.

Lemma descriptor_seven_numbers :
  descriptor "a,1,2,3,4,5,6,7" "a" [Fin 1; Fin 2; Fin 3; Fin 4; Fin 5; Fin 6; Fin 7].
Proof. parse_fields ["1"; "2"; "3"; "4"; "5"; "6"; "7"]%string. Qed.

Lemma descriptor_eight_numbers :
  descriptor "a,1,2,3,4,5,6,7,8" "a"
             [Fin 1; Fin 2; Fin 3; Fin 4; Fin 5; Fin 6; Fin 7; Fin 8].
Proof. parse_fields ["1"; "2"; "3"; "4"; "5"; "6"; "7"; "8"]%string. Qed.

(** A trailing comma adds no token, an empty field in the middle is a token
    that [stod] rejects, and [stod] ignores what follows a number. *)
Lemma getline_tokens_examples :
  getline_tokens "a,1,2," "," = ["a"; "1"; "2"]%string
  /\ getline_tokens "a,,2" "," = ["a"; ""; "2"]%string
  /\ getline_tokens "" "," = []
  /\ stod "" = Throws invalid_argument
  /\ stod "x" = Throws invalid_argument
  /\ stod " 12abc" = Returns (Fin 12)
  /\ stod "1e999" = Throws out_of_range
  /\ stod "-inf" = Returns NInf
  /\ stod "nan" = Returns NaN.
Proof. repeat split; vm_compute; reflexivity. Qed.

(** [std::stod] rounds to the nearest double, ties to even, and reports a range
    error for a value below the least normal double only when it is still
    below it after rounding. *)
Lemma stod_rounding_examples :
  stod "0.1" = Returns (Fin (3602879701896397 / 36028797018963968))
  /\ stod "9007199254740993" = Returns (Fin 9007199254740992)
  /\ stod "2.2250738585072013e-308" = stod "0x1p-1022"
  /\ stod "2.2250738585072012e-308" = Throws out_of_range
  /\ stod "0x1p-1075" = Throws out_of_range
  /\ stod "5e-324" = Throws out_of_range.
Proof. repeat split; vm_compute; reflexivity. Qed.

Lemma six_of_valid (ws : list double) :
  List.length ws = 6%nat -> (6 <= List.length ws)%nat.
Proof. intros ->. apply le_n. Qed.

(** ** Lists of descriptors with new identifiers *)

Lemma filter_id_absent (wid : string) (rois : list ROI) :
  ~ In wid (map id rois) ->
  filter (fun roi => String.eqb (id roi) wid) rois = [].
Proof.
  induction rois as [| roi rois IH]; [reflexivity |].
  cbn [map In filter]. intros H.
  destruct (String.eqb (id roi) wid) eqn:E.
  - apply String.eqb_eq in E. tauto.
  - apply IH. tauto.
Qed.

Lemma isIdStored_appended (this : Subtask) (roi : ROI) :
  isIdStored_ (set_deque this (dequeROI_ this ++ [roi])) (id roi) = true.
Proof.
  unfold isIdStored_. cbn [set_deque dequeROI_].
  rewrite existsb_app. cbn [existsb]. rewrite String.eqb_refl.
  rewrite orb_true_r. reflexivity.
Qed.

Lemma ingest_all_fresh (init : Subtask) (ds : list parsed) :
  Forall parsed_valid ds ->
  NoDup (map parsed_id ds) ->
  forall this,
    robotPos_ this = robotPos_ init -> refVector_ this = refVector_ init ->
    (forall d, In d ds -> isIdStored_ this (parsed_id d) = false) ->
    exists log,
      ingest_all this (map parsed_str ds)
      = Returns (set_deque this
                   (dequeROI_ this
                    ++ map (fun d => roi_of init (parsed_id d) (parsed_pos d)) ds),
                 log).
Proof.
  intros Hvalid. induction Hvalid as [| d ds [Hd Hlen] _ IH];
    intros Hnodup this Hp Hr Hfresh.
  - exists []. cbn [map ingest_all]. rewrite app_nil_r.
    destruct this; reflexivity.
  - cbn [map] in Hnodup. inversion Hnodup as [| ? ? Hnotin Hnodup']; subst.
    cbn [map ingest_all]. unfold cbkROI_.
    rewrite (parseROI_fresh this _ _ _ Hd)
      by (try (apply six_of_valid; assumption); apply Hfresh; left; reflexivity).
    cbn [bind].
    rewrite (roi_of_same_members init this _ _ Hp Hr).
    set (roi := roi_of init (parsed_id d) (parsed_pos d)).
    destruct (IH Hnodup' (set_deque this (dequeROI_ this ++ [roi])) Hp Hr)
      as [log Hlog].
    + intros d' Hin. apply isIdStored_false.
      cbn [set_deque dequeROI_]. rewrite map_app. cbn [map].
      rewrite in_app_iff. intros [H | [H | []]].
      * apply (proj1 (isIdStored_false this (parsed_id d'))); [| exact H].
        apply Hfresh. right. exact Hin.
      * apply Hnotin. unfold roi in H. cbn [roi_of id] in H. rewrite H.
        apply in_map. exact Hin.
    + rewrite Hlog. cbn [bind set_deque dequeROI_ robotPos_ refVector_].
      rewrite <- app_assoc. eexists. reflexivity.
Qed.

Lemma consume_prefix (this : Subtask) (k : nat) :
  (k <= List.length (dequeROI_ this))%nat ->
  consume k this
  = (firstn k (dequeROI_ this), set_deque this (skipn k (dequeROI_ this))).
Proof.
  revert this. induction k as [| k IH]; intros this Hk.
  - destruct this; reflexivity.
  - cbn [consume]. unfold getROI.
    destruct (dequeROI_ this) as [| roi rest] eqn:E; [simpl in Hk; lia |].
    rewrite IH by (cbn [set_deque dequeROI_]; simpl in Hk; lia).
    reflexivity.
Qed.

(* ================================================================== *)
(** * The claims *)

(** ** C1: what the solver returns *)




(** ** C2: the size check *)

(** C2, the code at the failing inputs, from an empty queue.  Eight fields
    ([a,1,2,3,4,5,6,7]): a record of the first six numbers is appended and no
    error is logged, since the seven numbers equal [MSG_SIZE].  Nine fields:
    the error is logged and the record is appended all the same, the check
    being followed by no [return].  Six fields: the error is logged and
    [waypointsPos[5]] is read past the end of the vector. *)
Theorem parseROI_wrong_field_count (robotPos refVector : Vector3d) :
  let this := Subtask_new robotPos refVector in
  (exists roi log,
      parseROI_ this "a,1,2,3,4,5,6,7" = Returns (set_deque this [roi], log)
      /\ id roi = "a"%string /\ posStart roi = vfin 1 2 3 /\ posEnd roi = vfin 4 5 6
      /\ existsb is_error log = false)
  /\ (exists roi log,
      parseROI_ this "a,1,2,3,4,5,6,7,8" = Returns (set_deque this [roi], log)
      /\ id roi = "a"%string /\ posStart roi = vfin 1 2 3 /\ posEnd roi = vfin 4 5 6
      /\ existsb is_error log = true)
  /\ parseROI_ this "a,1,2,3,4,5" = Undefined.
Proof.
  intros this. split; [| split].
  - rewrite (parseROI_fresh this _ _ _ descriptor_seven_numbers)
      by (simpl; try lia; reflexivity).
    eexists; eexists. split; [reflexivity |]. repeat split; reflexivity.
  - rewrite (parseROI_fresh this _ _ _ descriptor_eight_numbers)
      by (simpl; try lia; reflexivity).
    eexists; eexists. split; [reflexivity |]. repeat split; reflexivity.
  - apply (parseROI_short this _ _ _ descriptor_five_numbers);
      simpl; try lia; reflexivity.
Qed.

(** ** C3: a field that is not a number *)

(** C3, against the claim as stated: on [a,1,x,3,4,5,6] the call does not
    return; [std::invalid_argument] leaves [parseROI_], and nothing was
    logged. *)
Lemma parseROI_non_numeric_escapes :
  parseROI_ (Subtask_new (vfin 0 0 0) (vfin 1 0 0)) "a,1,x,3,4,5,6"
  = Throws invalid_argument.
Proof. reflexivity. Qed.

(** C3, amended: when [std::stod] can convert nothing of some coordinate
    field, the call is left by an exception of [std::stod] (nothing in
    [parseROI_] or [cbkROI_] catches it, and nothing is logged); no record is
    created and the object is as before the call. *)
Theorem parseROI_non_numeric_throws (this : Subtask) (str waypointID : string)
    (tokens : list string) :
  getline_tokens str "," = waypointID :: tokens ->
  (exists token, In token tokens /\ stod token = Throws invalid_argument) ->
  (exists e, cbkROI_ this str = Throws e)
  /\ object_after this (cbkROI_ this str) = Some this.
Proof.
  intros Htok (token & Hin & Hbad).
  destruct (splitString_loop_throws tokens waypointID []) as [e He].
  - exists token. split; [exact Hin | eauto].
  - intros t _. apply stod_defined.
  - assert (H : cbkROI_ this str = Throws e).
    { unfold cbkROI_, parseROI_, splitString_. rewrite Htok.
      cbn [splitString_loop negb]. rewrite He. reflexivity. }
    rewrite H. split; [exists e |]; reflexivity.
Qed.

Lemma parseROI_non_numeric_throws_witness :
  (exists e, cbkROI_ (Subtask_new (vfin 0 0 0) (vfin 1 0 0)) "a,1,x,3,4,5,6"
             = Throws e)
  /\ object_after (Subtask_new (vfin 0 0 0) (vfin 1 0 0))
                  (cbkROI_ (Subtask_new (vfin 0 0 0) (vfin 1 0 0)) "a,1,x,3,4,5,6")
     = Some (Subtask_new (vfin 0 0 0) (vfin 1 0 0)).
Proof.
  apply (parseROI_non_numeric_throws _ "a,1,x,3,4,5,6" "a"
           ["1"; "x"; "3"; "4"; "5"; "6"]%string).
  - reflexivity.
  - exists "x"%string. split; [simpl; tauto | reflexivity].
Defined.

(** ** C4: the same identifier twice *)

(** C4: for two valid descriptors with the same identifier, whatever their
    coordinates, both calls return, and the second leaves the object exactly as
    the first left it.  When a stored record already carries the identifier,
    the first call changes nothing either; when none does, the first call
    appended the record of the first descriptor, and it is the only stored
    record with that identifier. *)
Theorem ingest_same_id_twice (this : Subtask) (str1 str2 waypointID : string)
    (ws1 ws2 : list double) :
  valid_descriptor str1 waypointID ws1 ->
  valid_descriptor str2 waypointID ws2 ->
  exists this1 log1 log2,
    parseROI_ this str1 = Returns (this1, log1)
    /\ parseROI_ this1 str2 = Returns (this1, log2)
    /\ (In waypointID (map id (dequeROI_ this)) -> this1 = this)
    /\ (~ In waypointID (map id (dequeROI_ this)) ->
        dequeROI_ this1 = dequeROI_ this ++ [roi_of this waypointID ws1]
        /\ filter (fun roi => String.eqb (id roi) waypointID) (dequeROI_ this1)
           = [roi_of this waypointID ws1]).
Proof.
  intros [Hd1 Hlen1] [Hd2 Hlen2].
  destruct (isIdStored_ this waypointID) eqn:Hstored.
  - exists this. do 2 eexists.
    rewrite (parseROI_stored this _ _ _ Hd1 Hstored).
    rewrite (parseROI_stored this _ _ _ Hd2 Hstored).
    split; [reflexivity |]. split; [reflexivity |].
    split; [intros _; reflexivity |].
    intros Hnew. exfalso. apply Hnew. apply isIdStored_In. exact Hstored.
  - pose proof (proj1 (isIdStored_false this waypointID) Hstored) as Hnew.
    do 3 eexists.
    rewrite (parseROI_fresh this _ _ _ Hd1 (six_of_valid _ Hlen1) Hstored).
    split; [reflexivity |]. split; [| split].
    + apply (parseROI_stored _ _ _ _ Hd2).
      apply (isIdStored_appended this (roi_of this waypointID ws1)).
    + intros Hin. contradiction.
    + intros _. cbn [set_deque dequeROI_]. split; [reflexivity |].
      rewrite filter_app. cbn [filter roi_of id]. rewrite String.eqb_refl.
      rewrite filter_id_absent by exact Hnew.
      reflexivity.
Qed.

Lemma ingest_same_id_twice_witness :
  exists this1 log1 log2,
    parseROI_ (Subtask_new (vfin 0 0 0) (vfin 1 0 0)) "a,1,2,3,4,5,6"
    = Returns (this1, log1)
    /\ parseROI_ this1 "a,6,5,4,3,2,1" = Returns (this1, log2)
    /\ dequeROI_ this1
       = [roi_of (Subtask_new (vfin 0 0 0) (vfin 1 0 0)) "a"
                 [Fin 1; Fin 2; Fin 3; Fin 4; Fin 5; Fin 6]]
    /\ filter (fun roi => String.eqb (id roi) "a") (dequeROI_ this1)
       = [roi_of (Subtask_new (vfin 0 0 0) (vfin 1 0 0)) "a"
                 [Fin 1; Fin 2; Fin 3; Fin 4; Fin 5; Fin 6]].
Proof.
  destruct (ingest_same_id_twice (Subtask_new (vfin 0 0 0) (vfin 1 0 0))
              "a,1,2,3,4,5,6" "a,6,5,4,3,2,1" "a" _ _
              descriptor_a descriptor_a_again)
    as (this1 & log1 & log2 & H1 & H2 & _ & H3).
  exists this1, log1, log2.
  split; [exact H1 |]. split; [exact H2 |].
  apply H3. intros Hin. exact Hin.
Defined.

(** ** C5: first in, first out *)

(** C5: from an empty queue, the callback run on valid descriptors with
    pairwise different identifiers returns with their records stored in the
    order of arrival; [k] successive calls of [getROI] return the first [k] of
    them in that order and leave the others, and after as many calls as there
    were descriptors all were returned and [empty] is true. *)
Theorem fifo_order (robotPos refVector : Vector3d) (ds : list parsed) :
  let this := Subtask_new robotPos refVector in
  let rois := map (fun d => roi_of this (parsed_id d) (parsed_pos d)) ds in
  Forall parsed_valid ds ->
  NoDup (map parsed_id ds) ->
  exists this' log,
    ingest_all this (map parsed_str ds) = Returns (this', log)
    /\ (forall k, (k <= List.length ds)%nat ->
          consume k this' = (firstn k rois, set_deque this (skipn k rois)))
    /\ fst (consume (List.length ds) this') = rois
    /\ empty (snd (consume (List.length ds) this')) = true.
Proof.
  intros this rois Hvalid Hnodup.
  destruct (ingest_all_fresh this ds Hvalid Hnodup this eq_refl eq_refl)
    as [log Hlog]; [reflexivity |].
  cbn [this Subtask_new dequeROI_ app] in Hlog. fold this in Hlog. fold rois in Hlog.
  exists (set_deque this rois), log. split; [exact Hlog |].
  assert (Hlen : List.length rois = List.length ds) by (unfold rois; apply length_map).
  assert (Hpre : forall k, (k <= List.length ds)%nat ->
            consume k (set_deque this rois)
            = (firstn k rois, set_deque this (skipn k rois))).
  { intros k Hk. rewrite consume_prefix by (cbn [set_deque dequeROI_]; lia).
    reflexivity. }
  split; [exact Hpre |].
  rewrite (Hpre _ (le_n _)). cbn [fst snd]. rewrite <- Hlen.
  rewrite firstn_all, skipn_all. split; reflexivity.
Qed.

Lemma fifo_order_witness :
  let this := Subtask_new (vfin 0 0 0) (vfin 1 0 0) in
  let ds : list parsed :=
    [("a,1,2,3,4,5,6", ("a", [Fin 1; Fin 2; Fin 3; Fin 4; Fin 5; Fin 6]));
     ("b,0,0,0,1,0,0", ("b", [Fin 0; Fin 0; Fin 0; Fin 1; Fin 0; Fin 0]));
     ("c,-1,2.5,3e2,4,5,6",
      ("c", [Fin (-1); Fin (5 / 2); Fin 300; Fin 4; Fin 5; Fin 6]))]%string in
  let rois := map (fun d => roi_of this (parsed_id d) (parsed_pos d)) ds in
  exists this' log,
    ingest_all this (map parsed_str ds) = Returns (this', log)
    /\ (forall k, (k <= List.length ds)%nat ->
          consume k this' = (firstn k rois, set_deque this (skipn k rois)))
    /\ fst (consume (List.length ds) this') = rois
    /\ empty (snd (consume (List.length ds) this')) = true.
Proof.
  intros this ds rois.
  apply (fifo_order (vfin 0 0 0) (vfin 1 0 0) ds).
  - repeat constructor.
    + exact (proj1 descriptor_a).
    + exact (proj1 descriptor_b).
    + exact (proj1 descriptor_c).
  - repeat constructor; simpl; intuition discriminate.
Defined.

(** ** C6: the quaternions of the stored records *)




(** ** C7: the worked example *)

(** C7: for [P0 = (0,0,0)], [P1 = (1,0,0)], [P2 = (0,1,0)],
    [refVector = (0,0,1)] and [theta = 0], the rotated edge vector is
    [(-1,0,0)], and the returned quaternion applied to [refVector] gives
    [(-1,0,0)]. *)
Theorem alignment_example :
  let pointsArray := (vfin 0 0 0, vfin 1 0 0, vfin 0 1 0) in
  let refVector := vfin 0 0 1 in
  rotatedVectPlan pointsArray (Fin 0) = vfin (-1) 0 0
  /\ transformVector (rotateVectorInPlan_ pointsArray refVector (Fin 0)) refVector
     = vfin (-1) 0 0.
Proof.
  intros pointsArray refVector.
  assert (Hrot : rotatedVectPlan pointsArray (Fin 0) = vfin (-1) 0 0).
  { unfold pointsArray. rewrite rotatedVectPlan_theta0 by reflexivity.
    rewrite vsub_vfin. apply vfin_eq; ring. }
  split; [exact Hrot |].
  unfold refVector.
  rewrite (rotateVectorInPlan_closed_form pointsArray (Fin 0) 0 0 1 (-1) 0 0 Hrot)
    by (ring_simplify; lra).
  replace ((0 * -1 + 0 * 0 + 1 * 0)
           / (sqrt (0 * 0 + 0 * 0 + 1 * 1) * sqrt (-1 * -1 + 0 * 0 + 0 * 0)))
    with 0 by (unfold Rdiv; ring).
  rewrite acos_0. replace (PI / 2 / 2) with (PI / 4) by field.
  rewrite cos_PI4, sin_PI4.
  replace ((0 * 0 - 1 * 0) * (0 * 0 - 1 * 0) + (1 * -1 - 0 * 0) * (1 * -1 - 0 * 0)
           + (0 * 0 - 0 * -1) * (0 * 0 - 0 * -1)) with 1 by ring.
  rewrite sqrt_1.
  rewrite transformVector_fin.
  pose proof sqrt2_half as Hh.
  set (h := 1 / sqrt 2) in *.
  apply vfin_eq; nra.
Qed.

(** ** C8: clearing, and consuming from an empty queue *)

(** An empty queue is the queue that [clearROI] leaves. *)
Lemma empty_is_cleared (this : Subtask) :
  empty this = true -> clearROI this = this.
Proof.
  destruct this as [[| roi rois] robotPos refVector]; [reflexivity | discriminate].
Qed.

(** C8: whatever the state, after [clearROI] the queue is empty, and any
    number of calls of [getROI] then return the default record each time and
    leave the queue empty. *)
Theorem clear_then_consume (this : Subtask) (n : nat) :
  empty (clearROI this) = true
  /\ getROI (clearROI this) = (ROI_default, clearROI this)
  /\ consume n (clearROI this) = (repeat ROI_default n, clearROI this).
Proof.
  split; [reflexivity |]. split; [reflexivity |].
  induction n as [| n IH]; [reflexivity |].
  cbn [consume]. change (getROI (clearROI this)) with (ROI_default, clearROI this).
  cbn iota. rewrite IH. reflexivity.
Qed.

(** ** C9: the identifiers of the stored records *)

(** C9, against the claim as stated: the descriptor [,1,2,3,4,5,6], whose
    identifier field is empty, is accepted, and the stored record has the
    empty string as its identifier. *)
Lemma parseROI_stores_empty_id :
  exists roi log,
    parseROI_ (Subtask_new (vfin 0 0 0) (vfin 1 0 0)) ",1,2,3,4,5,6"
    = Returns (set_deque (Subtask_new (vfin 0 0 0) (vfin 1 0 0)) [roi], log)
    /\ id roi = EmptyString.
Proof.
  rewrite (parseROI_fresh _ _ _ _ (proj1 descriptor_empty_id))
    by (simpl; try lia; reflexivity).
  do 2 eexists. split; reflexivity.
Qed.

(** C9, amended: in every state reached from an empty queue by descriptors
    whose identifier field is not empty, every stored record has a non-empty
    identifier, and the stored identifiers are pairwise different. *)
Theorem stored_ids (init this : Subtask) :
  dequeROI_ init = [] ->
  reachable_by (fun str => id_field str <> EmptyString) init this ->
  Forall (fun roi => id roi <> EmptyString) (dequeROI_ this)
  /\ NoDup (map id (dequeROI_ this)).
Proof.
  intros Hinit Hreach. split.
  - refine (proj2 (proj2 (reachable_by_records _ _ init Hinit _ this Hreach))).
    intros str ws Hacc _. exact Hacc.
  - exact (reachable_by_NoDup _ init this Hinit Hreach).
Qed.

Lemma stored_ids_witness :
  Forall (fun roi => id roi <> EmptyString)
         (dequeROI_
            (set_deque (Subtask_new (vfin 0 0 0) (vfin 1 0 0))
               [roi_of (Subtask_new (vfin 0 0 0) (vfin 1 0 0)) "a"
                       [Fin 1; Fin 2; Fin 3; Fin 4; Fin 5; Fin 6]]))
  /\ NoDup (map id
         (dequeROI_
            (set_deque (Subtask_new (vfin 0 0 0) (vfin 1 0 0))
               [roi_of (Subtask_new (vfin 0 0 0) (vfin 1 0 0)) "a"
                       [Fin 1; Fin 2; Fin 3; Fin 4; Fin 5; Fin 6]]))).
Proof.
  apply (stored_ids (Subtask_new (vfin 0 0 0) (vfin 1 0 0))).
  - reflexivity.
  - eapply reach_parseROI with (str := "a,1,2,3,4,5,6"%string).
    + apply reach_init.
    + discriminate.
    + apply (parseROI_fresh (Subtask_new (vfin 0 0 0) (vfin 1 0 0)) _ _ _
               (proj1 descriptor_a)).
      * simpl; lia.
      * reflexivity.
Defined.

(** ** C10: an identifier is forgotten with its record *)

(** C10: from an empty queue, after a valid descriptor was registered and its
    record consumed by [getROI] (or dropped by [clearROI]), a second valid
    descriptor with the same identifier is registered again: the queue then
    holds exactly the record of the second descriptor. *)
Theorem id_forgotten_once_consumed (robotPos refVector : Vector3d)
    (str1 str2 waypointID : string) (ws1 ws2 : list double) :
  let this := Subtask_new robotPos refVector in
  valid_descriptor str1 waypointID ws1 ->
  valid_descriptor str2 waypointID ws2 ->
  exists this1 log1 log2,
    parseROI_ this str1 = Returns (this1, log1)
    /\ getROI this1 = (roi_of this waypointID ws1, this)
    /\ clearROI this1 = this
    /\ parseROI_ (snd (getROI this1)) str2
       = Returns (set_deque this [roi_of this waypointID ws2], log2)
    /\ parseROI_ (clearROI this1) str2
       = Returns (set_deque this [roi_of this waypointID ws2], log2).
Proof.
  intros this [Hd1 Hlen1] [Hd2 Hlen2].
  pose proof (parseROI_fresh this _ _ _ Hd1 (six_of_valid _ Hlen1) eq_refl) as H1.
  pose proof (parseROI_fresh this _ _ _ Hd2 (six_of_valid _ Hlen2) eq_refl) as H2.
  do 3 eexists.
  split; [exact H1 |]. split; [reflexivity |]. split; [reflexivity |].
  split; exact H2.
Qed.

Lemma id_forgotten_once_consumed_witness :
  let this := Subtask_new (vfin 0 0 0) (vfin 1 0 0) in
  exists this1 log1 log2,
    parseROI_ this "a,1,2,3,4,5,6" = Returns (this1, log1)
    /\ getROI this1 = (roi_of this "a" [Fin 1; Fin 2; Fin 3; Fin 4; Fin 5; Fin 6], this)
    /\ clearROI this1 = this
    /\ parseROI_ (snd (getROI this1)) "a,6,5,4,3,2,1"
       = Returns (set_deque this
                    [roi_of this "a" [Fin 6; Fin 5; Fin 4; Fin 3; Fin 2; Fin 1]], log2)
    /\ parseROI_ (clearROI this1) "a,6,5,4,3,2,1"
       = Returns (set_deque this
                    [roi_of this "a" [Fin 6; Fin 5; Fin 4; Fin 3; Fin 2; Fin 1]], log2).
Proof.
  exact (id_forgotten_once_consumed (vfin 0 0 0) (vfin 1 0 0)
           "a,1,2,3,4,5,6" "a,6,5,4,3,2,1" "a" _ _
           descriptor_a descriptor_a_again).
Defined.

(* ================================================================== *)
(** * Further properties of the code *)

(** ** The solver in exact arithmetic: where the quaternion takes the reference vector *)





(** ** The solver in exact arithmetic: the first rotation *)






(** ** The solver on well-conditioned inputs *)


Lemma pow10_ge_1 (n : nat) : 1 <= 10 ^ n.
Proof. apply pow_R1_Rle. lra. Qed.

Lemma coordinates_within_finite (bound : R) (v : Vector3d) :
  coordinates_within bound v -> finite_vector v = true.
Proof. intros (x & y & z & -> & _). reflexivity. Qed.







(** ** The solver with the default angle *)

(** X4: with [theta = 0], as [parseROI_] calls the solver, and coordinates of
    magnitude at most [1e100] (so that the normal is finite), the first
    rotation leaves the edge vector [pointsArray[0] - pointsArray[1]] as it is,
    and the result does not depend on the third point ([robotPos_]). *)
Theorem rotateVectorInPlan_third_point_unused
    (p0 p1 p2 p2' refVector : Vector3d) :
  coordinates_within (10 ^ 100) p0 -> coordinates_within (10 ^ 100) p1 ->
  coordinates_within (10 ^ 100) p2 -> coordinates_within (10 ^ 100) p2' ->
  rotatedVectPlan (p0, p1, p2) theta_default = vsub p0 p1
  /\ rotateVectorInPlan_ (p0, p1, p2) refVector theta_default
     = rotateVectorInPlan_ (p0, p1, p2') refVector theta_default.
Proof.
  intros H0 H1 H2 H2'.
  apply coordinates_within_finite in H0, H1, H2, H2'.
  assert (Hp : finite_points (p0, p1, p2) = true)
    by (unfold finite_points; rewrite H0, H1, H2; reflexivity).
  assert (Hp' : finite_points (p0, p1, p2') = true)
    by (unfold finite_points; rewrite H0, H1, H2'; reflexivity).
  split.
  - apply rotatedVectPlan_theta0. exact Hp.
  - unfold rotateVectorInPlan_, theta_default.
    rewrite !rotatedVectPlan_theta0 by assumption. reflexivity.
Qed.

Lemma rotateVectorInPlan_third_point_unused_witness :
  rotatedVectPlan (vfin 1 2 3, vfin 4 5 6, vfin 0 0 0) theta_default
  = vsub (vfin 1 2 3) (vfin 4 5 6)
  /\ rotateVectorInPlan_ (vfin 1 2 3, vfin 4 5 6, vfin 0 0 0) (vfin 1 0 0) theta_default
     = rotateVectorInPlan_ (vfin 1 2 3, vfin 4 5 6, vfin 7 (-8) 9) (vfin 1 0 0)
                           theta_default.
Proof.
  pose proof (pow10_ge_1 100) as H100.
  apply (rotateVectorInPlan_third_point_unused
           (vfin 1 2 3) (vfin 4 5 6) (vfin 0 0 0) (vfin 7 (-8) 9) (vfin 1 0 0)).
  - exists 1, 2, 3. repeat split; lra.
  - exists 4, 5, 6. repeat split; lra.
  - exists 0, 0, 0. repeat split; lra.
  - exists 7, (-8), 9. repeat split; lra.
Defined.

(* ================================================================== *)
(** * Further properties of the queue *)

(** ** What a call logs and stores *)

Lemma parseROI_log (this this' : Subtask) (str waypointID : string)
    (ws : list double) (log : list event) :
  descriptor str waypointID ws ->
  parseROI_ this str = Returns (this', log) ->
  (isIdStored_ this waypointID = true /\ this' = this
   /\ log = size_events str ws ++ [ROS_INFO_already_registered waypointID])
  \/ (isIdStored_ this waypointID = false
      /\ this' = set_deque this (dequeROI_ this ++ [roi_of this waypointID ws])
      /\ log = size_events str ws
               ++ registration_events this (roi_of this waypointID ws)).
Proof.
  intros Hd Hparse.
  destruct (isIdStored_ this waypointID) eqn:Hst.
  - rewrite (parseROI_stored this _ _ _ Hd Hst) in Hparse.
    injection Hparse as <- <-. left. repeat split; reflexivity.
  - destruct (Nat.le_gt_cases 6 (List.length ws)) as [Hlen | Hlen].
    + rewrite (parseROI_fresh this _ _ _ Hd Hlen Hst) in Hparse.
      injection Hparse as <- <-. right. repeat split; reflexivity.
    + rewrite (parseROI_short this _ _ _ Hd Hlen Hst) in Hparse. discriminate.
Qed.

(** A call that returns converted every field. *)
Lemma parseROI_returns_descriptor (this this' : Subtask) (str : string)
    (log : list event) :
  parseROI_ this str = Returns (this', log) ->
  exists ws, splitString_ str "," EmptyString [] = Returns (id_field str, ws).
Proof.
  unfold parseROI_.
  destruct (splitString_ str "," EmptyString []) as [[wid ws] | e |] eqn:Hsplit;
    cbn [bind]; try discriminate.
  intros _. exists ws. rewrite (splitString_id_field _ _ _ Hsplit). reflexivity.
Qed.

(** The descriptor [a,1,2,3,4,5,6] with a new identifier. *)
Lemma parseROI_a (this : Subtask) :
  isIdStored_ this "a" = false ->
  parseROI_ this "a,1,2,3,4,5,6"
  = Returns (set_deque this
               (dequeROI_ this
                ++ [roi_of this "a" [Fin 1; Fin 2; Fin 3; Fin 4; Fin 5; Fin 6]]),
             size_events "a,1,2,3,4,5,6" [Fin 1; Fin 2; Fin 3; Fin 4; Fin 5; Fin 6]
             ++ registration_events this
                  (roi_of this "a" [Fin 1; Fin 2; Fin 3; Fin 4; Fin 5; Fin 6])).
Proof.
  intros Hnew.
  apply (parseROI_fresh this _ _ _ (proj1 descriptor_a)); [simpl; lia | exact Hnew].
Qed.

(** X8: a call of [parseROI_] that returns logs the size error, as its first
    event, exactly when the number of converted coordinate fields is not 7;
    it logs no other error.  A descriptor of an identifier and six coordinates
    is therefore always reported as wrongly sized, and one of seven coordinates
    never. *)
Theorem parseROI_size_error (this this' : Subtask) (str waypointID : string)
    (ws : list double) (log : list event) :
  descriptor str waypointID ws ->
  parseROI_ this str = Returns (this', log) ->
  (List.length ws <> 7%nat ->
   hd_error log = Some (ROS_ERROR_size str 7 (List.length ws)))
  /\ (List.length ws = 7%nat -> existsb is_error log = false)
  /\ existsb is_error log = negb (Nat.eqb (List.length ws) 7).
Proof.
  intros Hd Hparse.
  assert (Hlog : exists rest, log = size_events str ws ++ rest
                              /\ existsb is_error rest = false).
  { destruct (parseROI_log _ _ _ _ _ _ Hd Hparse) as [(_ & _ & ->) | (_ & _ & ->)];
      eexists; split; reflexivity. }
  destruct Hlog as (rest & -> & Hrest).
  unfold size_events, MSG_SIZE.
  destruct (Nat.eqb (List.length ws) 7) eqn:E; cbn [negb app].
  - apply Nat.eqb_eq in E. repeat split; try assumption; intros; try assumption.
    congruence.
  - apply Nat.eqb_neq in E. repeat split; intros; try reflexivity. congruence.
Qed.

Lemma parseROI_size_error_witness :
  let this := Subtask_new (vfin 0 0 0) (vfin 1 0 0) in
  let ws := [Fin 1; Fin 2; Fin 3; Fin 4; Fin 5; Fin 6] in
  let log := size_events "a,1,2,3,4,5,6" ws
             ++ registration_events this (roi_of this "a" ws) in
  (List.length ws <> 7%nat ->
   hd_error log = Some (ROS_ERROR_size "a,1,2,3,4,5,6" 7 (List.length ws)))
  /\ (List.length ws = 7%nat -> existsb is_error log = false)
  /\ existsb is_error log = negb (Nat.eqb (List.length ws) 7).
Proof.
  intros this ws log.
  apply (parseROI_size_error this (set_deque this [roi_of this "a" ws])
           "a,1,2,3,4,5,6" "a" ws log).
  - exact (proj1 descriptor_a).
  - apply (parseROI_a this). reflexivity.
Defined.

(** X9: a call of [parseROI_] that returns keeps every stored record in its
    place and appends at most one record, whose identifier is the first field
    of the descriptor; afterwards that identifier is stored, and [robotPos_]
    and [refVector_] are as before. *)
Theorem parseROI_keeps_records (this this' : Subtask) (str : string)
    (log : list event) :
  parseROI_ this str = Returns (this', log) ->
  (exists tail, dequeROI_ this' = dequeROI_ this ++ tail
                /\ (List.length tail <= 1)%nat
                /\ Forall (fun roi => id roi = id_field str) tail)
  /\ isIdStored_ this' (id_field str) = true
  /\ robotPos_ this' = robotPos_ this
  /\ refVector_ this' = refVector_ this.
Proof.
  intros Hparse. apply parseROI_returns in Hparse.
  destruct Hparse as [[Hst ->] | [Hst (ws & Hlen & ->)]].
  - split; [| repeat split; assumption].
    exists []. rewrite app_nil_r. repeat split; [apply Nat.le_0_l | constructor].
  - split; [| split; [| split; reflexivity]].
    + exists [roi_of this (id_field str) ws].
      repeat split; [apply le_n | repeat constructor].
    + apply (isIdStored_appended this (roi_of this (id_field str) ws)).
Qed.

Lemma parseROI_keeps_records_witness :
  let this := Subtask_new (vfin 0 0 0) (vfin 1 0 0) in
  let this' := set_deque this [roi_of this "a" [Fin 1; Fin 2; Fin 3; Fin 4; Fin 5; Fin 6]] in
  (exists tail, dequeROI_ this' = dequeROI_ this ++ tail
                /\ (List.length tail <= 1)%nat
                /\ Forall (fun roi => id roi = id_field "a,1,2,3,4,5,6") tail)
  /\ isIdStored_ this' (id_field "a,1,2,3,4,5,6") = true
  /\ robotPos_ this' = robotPos_ this
  /\ refVector_ this' = refVector_ this.
Proof.
  intros this this'.
  apply (parseROI_keeps_records this this' "a,1,2,3,4,5,6"
           (size_events "a,1,2,3,4,5,6" [Fin 1; Fin 2; Fin 3; Fin 4; Fin 5; Fin 6]
            ++ registration_events this
                 (roi_of this "a" [Fin 1; Fin 2; Fin 3; Fin 4; Fin 5; Fin 6]))).
  apply (parseROI_a this). reflexivity.
Defined.



Lemma existsb_eqb_In (x : string) (l : list string) :
  existsb (String.eqb x) l = true <-> In x l.
Proof.
  rewrite existsb_exists. split.
  - intros (y & Hy & E). apply String.eqb_eq in E. subst. exact Hy.
  - intros H. exists x. split; [exact H | apply String.eqb_refl].
Qed.

Lemma isIdStored_existsb (this : Subtask) (wid : string) :
  isIdStored_ this wid = existsb (String.eqb wid) (map id (dequeROI_ this)).
Proof.
  unfold isIdStored_. induction (dequeROI_ this) as [| roi rois IH]; [reflexivity |].
  cbn [existsb map]. rewrite IH, (String.eqb_sym (id roi) wid). reflexivity.
Qed.

(** Every list of valid descriptors is ingested; the records of the first
    occurrences of the identifiers not stored yet are appended, in order. *)
Lemma ingest_all_dedup (this : Subtask) (ds : list parsed) :
  Forall parsed_valid ds ->
  exists log,
    ingest_all this (map parsed_str ds)
    = Returns (set_deque this
                 (dequeROI_ this
                  ++ map (fun d => roi_of this (parsed_id d) (parsed_pos d))
                         (first_occurrences (map id (dequeROI_ this)) ds)),
               log).
Proof.
  intros Hvalid. revert this.
  induction Hvalid as [| d ds [Hd Hlen] _ IH]; intros this.
  - exists []. cbn [map ingest_all first_occurrences]. rewrite app_nil_r.
    destruct this; reflexivity.
  - cbn [map ingest_all first_occurrences]. unfold cbkROI_.
    rewrite <- isIdStored_existsb.
    destruct (isIdStored_ this (parsed_id d)) eqn:Hst.
    + rewrite (parseROI_stored this _ _ _ Hd Hst). cbn [bind].
      destruct (IH this) as [log Hlog]. rewrite Hlog. cbn [bind].
      eexists. reflexivity.
    + rewrite (parseROI_fresh this _ _ _ Hd (six_of_valid _ Hlen) Hst). cbn [bind].
      set (roi := roi_of this (parsed_id d) (parsed_pos d)).
      destruct (IH (set_deque this (dequeROI_ this ++ [roi]))) as [log Hlog].
      rewrite Hlog. cbn [bind set_deque dequeROI_ robotPos_ refVector_].
      rewrite map_app, <- app_assoc. cbn [map app].
      eexists. reflexivity.
Qed.

(** X10: the callback run on any list of valid descriptors, whatever the
    queue holds and with repeated identifiers allowed, returns; the queue then
    holds the pending records followed by one record for each first occurrence
    of an identifier that was not stored, in the order of arrival (a later
    descriptor with the same identifier is dropped), and [getROI] hands out the
    pending records first. *)
Theorem ingest_all_first_occurrences (this : Subtask) (ds : list parsed) :
  Forall parsed_valid ds ->
  exists this' log,
    ingest_all this (map parsed_str ds) = Returns (this', log)
    /\ (forall k, (k <= List.length (dequeROI_ this))%nat ->
          fst (consume k this') = firstn k (dequeROI_ this))
    /\ fst (consume (List.length (dequeROI_ this')) this')
       = dequeROI_ this
         ++ map (fun d => roi_of this (parsed_id d) (parsed_pos d))
                (first_occurrences (map id (dequeROI_ this)) ds).
Proof.
  intros Hvalid.
  destruct (ingest_all_dedup this ds Hvalid) as [log Hlog].
  eexists. exists log. split; [exact Hlog |].
  set (new := map _ (first_occurrences _ ds)).
  split.
  - intros k Hk.
    rewrite consume_prefix by (cbn [set_deque dequeROI_]; rewrite length_app; lia).
    cbn [fst set_deque dequeROI_].
    rewrite firstn_app. replace (k - List.length (dequeROI_ this))%nat with O by lia.
    cbn [firstn]. apply app_nil_r.
  - rewrite consume_prefix by apply le_n.
    cbn [fst set_deque dequeROI_]. apply firstn_all.
Qed.

Lemma example_parsed_valid : Forall parsed_valid example_parsed.
Proof.
  repeat constructor.
  - exact (proj1 descriptor_a).
  - exact (proj1 descriptor_b).
  - exact (proj1 descriptor_a_again).
Qed.

Lemma ingest_all_first_occurrences_witness :
  let this := Subtask_new (vfin 0 0 0) (vfin 1 0 0) in
  let pending := roi_of this "c" [Fin (-1); Fin (5 / 2); Fin 300; Fin 4; Fin 5; Fin 6] in
  exists this' log,
    ingest_all (set_deque this [pending])
               ["a,1,2,3,4,5,6"; "b,0,0,0,1,0,0"; "a,6,5,4,3,2,1"]%string
    = Returns (this', log)
    /\ (forall k, (k <= 1)%nat -> fst (consume k this') = firstn k [pending])
    /\ fst (consume (List.length (dequeROI_ this')) this')
       = [pending;
          roi_of this "a" [Fin 1; Fin 2; Fin 3; Fin 4; Fin 5; Fin 6];
          roi_of this "b" [Fin 0; Fin 0; Fin 0; Fin 1; Fin 0; Fin 0]].
Proof.
  intros this pending.
  exact (ingest_all_first_occurrences (set_deque this [pending]) example_parsed
           example_parsed_valid).
Defined.

Lemma count_publish_registration (this : Subtask) (roi : ROI) :
  List.length (filter is_publish (registration_events this roi)) = 12%nat.
Proof. reflexivity. Qed.

Lemma filter_publish_size_events (str : string) (ws : list double) :
  filter is_publish (size_events str ws) = [].
Proof. unfold size_events. destruct (negb _); reflexivity. Qed.

(** A call that returns, with what it logged. *)
Lemma parseROI_returns_log (this this' : Subtask) (str : string) (log : list event) :
  parseROI_ this str = Returns (this', log) ->
  exists ws,
    (isIdStored_ this (id_field str) = true /\ this' = this
     /\ log = size_events str ws ++ [ROS_INFO_already_registered (id_field str)])
    \/ (isIdStored_ this (id_field str) = false
        /\ (6 <= List.length ws)%nat
        /\ this' = set_deque this (dequeROI_ this ++ [roi_of this (id_field str) ws])
        /\ log = size_events str ws
                 ++ registration_events this (roi_of this (id_field str) ws)).
Proof.
  unfold parseROI_.
  destruct (splitString_ str "," EmptyString []) as [[wid ws] | e |] eqn:Hsplit;
    cbn [bind]; try discriminate.
  apply splitString_id_field in Hsplit. subst wid.
  fold (size_events str ws). intros Hparse. exists ws.
  destruct (isIdStored_ this (id_field str)); cbn [negb] in Hparse.
  - injection Hparse as <- <-. left. repeat split; reflexivity.
  - destruct (at_index ws 0) as [w0 | |] eqn:E0; cbn [bind] in Hparse; try discriminate.
    destruct (at_index ws 1) as [w1 | |] eqn:E1; cbn [bind] in Hparse; try discriminate.
    destruct (at_index ws 2) as [w2 | |] eqn:E2; cbn [bind] in Hparse; try discriminate.
    destruct (at_index ws 3) as [w3 | |] eqn:E3; cbn [bind] in Hparse; try discriminate.
    destruct (at_index ws 4) as [w4 | |] eqn:E4; cbn [bind] in Hparse; try discriminate.
    destruct (at_index ws 5) as [w5 | |] eqn:E5; cbn [bind] in Hparse; try discriminate.
    injection Hparse as <- <-. right.
    apply at_index_returns in E0, E1, E2, E3, E4, E5.
    destruct E0 as [_ ->], E1 as [_ ->], E2 as [_ ->], E3 as [_ ->],
             E4 as [_ ->], E5 as [H5 ->].
    repeat split; try reflexivity. lia.
Qed.

Lemma parseROI_publish_count (this this' : Subtask) (str : string)
    (log : list event) :
  parseROI_ this str = Returns (this', log) ->
  (List.length (filter is_publish log)
   = 12 * (List.length (dequeROI_ this') - List.length (dequeROI_ this)))%nat
  /\ (List.length (dequeROI_ this) <= List.length (dequeROI_ this'))%nat.
Proof.
  intros Hparse.
  destruct (parseROI_returns_log _ _ _ _ Hparse)
    as (ws & [(_ & -> & ->) | (_ & _ & -> & ->)]).
  - rewrite filter_app, filter_publish_size_events, Nat.sub_diag.
    split; [reflexivity | apply le_n].
  - rewrite filter_app, filter_publish_size_events.
    cbn [set_deque dequeROI_ app]. rewrite count_publish_registration, length_app.
    cbn [List.length].
    replace (List.length (dequeROI_ this) + 1 - List.length (dequeROI_ this))%nat
      with 1%nat by lia.
    split; [reflexivity | lia].
Qed.

(** X11: when the callback has returned on each message of a list, the number
    of messages published to the debug topics is 12 for each record the queue
    gained (three points and a pose, three times each), and the queue lost no
    record: a descriptor whose identifier is stored publishes nothing. *)
Theorem ingest_all_publish_count (this this' : Subtask) (msgs : list string)
    (log : list event) :
  ingest_all this msgs = Returns (this', log) ->
  (List.length (filter is_publish log)
   = 12 * (List.length (dequeROI_ this') - List.length (dequeROI_ this)))%nat
  /\ (List.length (dequeROI_ this) <= List.length (dequeROI_ this'))%nat.
Proof.
  revert this this' log. induction msgs as [| msg msgs IH]; intros this this' log.
  - cbn [ingest_all]. intros [= <- <-]. rewrite Nat.sub_diag.
    split; [reflexivity | apply le_n].
  - cbn [ingest_all]. unfold cbkROI_.
    destruct (parseROI_ this msg) as [[this1 log1] | e |] eqn:Hparse;
      cbn [bind]; try discriminate.
    destruct (ingest_all this1 msgs) as [[this2 log2] | e |] eqn:Hrest;
      cbn [bind]; try discriminate.
    intros [= <- <-].
    destruct (IH _ _ _ Hrest) as [Hcount Hle].
    destruct (parseROI_publish_count _ _ _ _ Hparse) as [Hone Hle1].
    rewrite filter_app, length_app, Hcount, Hone. split; lia.
Qed.

Lemma ingest_all_publish_count_witness :
  let this := Subtask_new (vfin 0 0 0) (vfin 1 0 0) in
  let roi := roi_of this "a" [Fin 1; Fin 2; Fin 3; Fin 4; Fin 5; Fin 6] in
  let log := (size_events "a,1,2,3,4,5,6" [Fin 1; Fin 2; Fin 3; Fin 4; Fin 5; Fin 6]
              ++ registration_events this roi) ++ [] in
  (List.length (filter is_publish log)
   = 12 * (List.length (dequeROI_ (set_deque this [roi])) - List.length (dequeROI_ this)))%nat
  /\ (List.length (dequeROI_ this) <= List.length (dequeROI_ (set_deque this [roi])))%nat.
Proof.
  intros this roi log.
  apply (ingest_all_publish_count this (set_deque this [roi]) ["a,1,2,3,4,5,6"%string] log).
  cbn [ingest_all]. unfold cbkROI_.
  rewrite (parseROI_a this eq_refl). reflexivity.
Defined.

(** X12: a descriptor with fewer than six coordinates (all converted): the
    call reads [waypointsPos] past its end, which is undefined behaviour,
    exactly when the identifier is not stored; when it is stored the call
    returns, the object unchanged, having logged the size error and that the
    identifier is registered. *)
Theorem parseROI_short_descriptor (this : Subtask) (str waypointID : string)
    (ws : list double) :
  descriptor str waypointID ws ->
  (List.length ws < 6)%nat ->
  (parseROI_ this str = Undefined <-> isIdStored_ this waypointID = false)
  /\ (isIdStored_ this waypointID = true ->
      parseROI_ this str
      = Returns (this, [ROS_ERROR_size str 7 (List.length ws);
                        ROS_INFO_already_registered waypointID])).
Proof.
  intros Hd Hlen. split.
  - split.
    + intros Hundef. destruct (isIdStored_ this waypointID) eqn:Hst; [| reflexivity].
      rewrite (parseROI_stored this _ _ _ Hd Hst) in Hundef. discriminate.
    + apply (parseROI_short this _ _ _ Hd Hlen).
  - intros Hst. rewrite (parseROI_stored this _ _ _ Hd Hst).
    unfold size_events, MSG_SIZE.
    destruct (Nat.eqb (List.length ws) 7) eqn:E; [| reflexivity].
    apply Nat.eqb_eq in E. lia.
Qed.

Lemma parseROI_short_descriptor_witness :
  let this := Subtask_new (vfin 0 0 0) (vfin 1 0 0) in
  (parseROI_ this "a,1,2,3,4,5" = Undefined <-> isIdStored_ this "a" = false)
  /\ (isIdStored_ this "a" = true ->
      parseROI_ this "a,1,2,3,4,5"
      = Returns (this, [ROS_ERROR_size "a,1,2,3,4,5" 7
                          (List.length [Fin 1; Fin 2; Fin 3; Fin 4; Fin 5]);
                        ROS_INFO_already_registered "a"])).
Proof.
  intros this.
  apply (parseROI_short_descriptor this "a,1,2,3,4,5" "a"
           [Fin 1; Fin 2; Fin 3; Fin 4; Fin 5]).
  - exact descriptor_five_numbers.
  - simpl. lia.
Defined.

(** ** Exceptions *)

Lemma splitString_loop_throws_iff (tokens : list string) (waypointID : string)
    (acc : list double) (e : exception) :
  splitString_loop tokens true waypointID acc = Throws e
  <-> exists pre bad post,
        tokens = pre ++ bad :: post
        /\ Forall converts pre /\ stod bad = Throws e.
Proof.
  revert acc. induction tokens as [| token tokens IH]; intros acc.
  - cbn [splitString_loop]. split; [discriminate |].
    intros (pre & bad & post & E & _). destruct pre; discriminate E.
  - cbn [splitString_loop negb]. destruct (stod token) as [d | e' |] eqn:Hstod;
      cbn [bind].
    + rewrite IH. split.
      * intros (pre & bad & post & -> & Hpre & Hbad).
        exists (token :: pre), bad, post. repeat split; try assumption.
        constructor; [exists d; exact Hstod | exact Hpre].
      * intros (pre & bad & post & E & Hpre & Hbad).
        destruct pre as [| t pre]; cbn [app] in E; injection E as <- ->.
        -- congruence.
        -- exists pre, bad, post. inversion Hpre; subst. repeat split; assumption.
    + split.
      * intros [= ->]. exists [], token, tokens. repeat split; [constructor | exact Hstod].
      * intros (pre & bad & post & E & Hpre & Hbad).
        destruct pre as [| t pre]; cbn [app] in E; injection E as <- ->.
        -- congruence.
        -- inversion Hpre as [| ? ? [d Hd] ?]; subst. congruence.
    + exfalso. exact (stod_defined token Hstod).
Qed.

(** X13: [parseROI_] is left by an exception exactly when some field after the
    identifier is refused by [std::stod] while every field between the
    identifier and it is converted; the exception is that of the first refused
    field.  The identifier field is never converted, and the fields after the
    refused one are not looked at. *)
Theorem parseROI_throws_iff (this : Subtask) (str : string) (e : exception) :
  parseROI_ this str = Throws e
  <-> exists waypointID pre bad post,
        getline_tokens str "," = waypointID :: pre ++ bad :: post
        /\ Forall converts pre /\ stod bad = Throws e.
Proof.
  assert (Hsplit : parseROI_ this str = Throws e
                   <-> splitString_ str "," EmptyString [] = Throws e).
  { unfold parseROI_.
    destruct (splitString_ str "," EmptyString []) as [[wid ws] | e' |]; cbn [bind].
    - split; [| discriminate].
      destruct (isIdStored_ this wid); cbn [negb]; [discriminate |].
      unfold at_index.
      destruct (nth_error ws 0); cbn [bind]; try discriminate.
      destruct (nth_error ws 1); cbn [bind]; try discriminate.
      destruct (nth_error ws 2); cbn [bind]; try discriminate.
      destruct (nth_error ws 3); cbn [bind]; try discriminate.
      destruct (nth_error ws 4); cbn [bind]; try discriminate.
      destruct (nth_error ws 5); cbn [bind]; discriminate.
    - split; intros [= ->]; reflexivity.
    - split; discriminate. }
  rewrite Hsplit. unfold splitString_.
  destruct (getline_tokens str ",") as [| wid tokens].
  - cbn [splitString_loop]. split; [discriminate |].
    intros (w & pre & bad & post & E & _). discriminate E.
  - cbn [splitString_loop negb]. rewrite splitString_loop_throws_iff. split.
    + intros (pre & bad & post & -> & Hpre & Hbad). exists wid, pre, bad, post.
      repeat split; assumption.
    + intros (w & pre & bad & post & E & Hpre & Hbad). injection E as <- ->.
      exists pre, bad, post. repeat split; assumption.
Qed.

(** ** The tokenizer *)

Lemma getline_tokens_nil (str : string) (delimiter : ascii) :
  getline_tokens str delimiter = [] <-> str = EmptyString.
Proof.
  destruct str as [| c rest]; cbn [getline_tokens].
  - split; reflexivity.
  - split; [| discriminate].
    destruct (Ascii.eqb c delimiter); [discriminate |].
    destruct (getline_tokens rest delimiter); discriminate.
Qed.

(** X14: the tokens [splitString_] reads, joined by the delimiter, give the
    string back, less one delimiter at its very end; no token holds the
    delimiter.  So only a last empty field is lost. *)
Theorem getline_tokens_join (str : string) (delimiter : ascii) :
  String.concat (String delimiter EmptyString) (getline_tokens str delimiter)
  = drop_last_delimiter str delimiter
  /\ Forall (fun token => contains delimiter token = false)
            (getline_tokens str delimiter).
Proof.
  induction str as [| c rest [IHj IHc]]; [split; [reflexivity | constructor] |].
  cbn [getline_tokens drop_last_delimiter].
  destruct (Ascii.eqb c delimiter) eqn:Ec.
  - apply Ascii.eqb_eq in Ec. subst c. split.
    + destruct rest as [| c' rest'].
      * reflexivity.
      * destruct (getline_tokens (String c' rest') delimiter) as [| t ts] eqn:Et.
        -- apply getline_tokens_nil in Et. discriminate.
        -- cbn [concat] in *. rewrite IHj. reflexivity.
    + constructor; [reflexivity | exact IHc].
  - destruct rest as [| c' rest'].
    + cbn [getline_tokens concat]. split; [reflexivity |].
      constructor; [| constructor]. cbn [contains]. rewrite Ec. reflexivity.
    + destruct (getline_tokens (String c' rest') delimiter) as [| t ts] eqn:Et.
      * apply getline_tokens_nil in Et. discriminate.
      * split.
        -- rewrite <- IHj. destruct ts; reflexivity.
        -- inversion IHc; subst. constructor; [| assumption].
           cbn [contains]. rewrite Ec. assumption.
Qed.

(** X15: the loop [while (getline(ss, token, delimiter))] of [splitString_]
    ends: after at most [length str + 1] calls [getline] fails, whatever the
    string, and the loop has read at most [length str] tokens. *)
Theorem getline_loop_terminates (str : string) (delimiter : ascii) (extra : nat) :
  getline_loop (S (String.length str) + extra) (stringstream_of str) delimiter
  = getline_tokens str delimiter
  /\ (List.length (getline_tokens str delimiter) <= String.length str)%nat.
Proof.
  split.
  - apply getline_loop_tokens. lia.
  - induction str as [| c rest IH]; [apply le_n |].
    cbn [getline_tokens String.length].
    destruct (Ascii.eqb c delimiter); [cbn [List.length]; lia |].
    destruct (getline_tokens rest delimiter); cbn [List.length] in *; lia.
Qed.

(* ================================================================== *)
(** * Properties of the helpers of the kinematics tests *)

(** ** [calculateRotationDifference] *)

Lemma finite_quaternion_qfin (q : Quaterniond) :
  finite_quaternion q = true -> exists w x y z, q = qfin w x y z.
Proof.
  destruct q as [[w| | |] [x| | |] [y| | |] [z| | |]]; try discriminate.
  intros _. exists w, x, y, z. reflexivity.
Qed.

Lemma squares4_zero (w x y z : R) :
  x * x + y * y + z * z + w * w <= 0 -> w = 0 /\ x = 0 /\ y = 0 /\ z = 0.
Proof. intros H. repeat split; nra. Qed.

Lemma qnormalized_qfin_pos (w x y z : R) :
  let s := x * x + y * y + z * z + w * w in
  0 < s ->
  qnormalized (qfin w x y z)
  = qfin (w / sqrt s) (x / sqrt s) (y / sqrt s) (z / sqrt s).
Proof.
  intros s Hs. unfold qnormalized, qfin. cbn [qw qx qy qz dmul dadd]. fold s.
  rewrite dgt_fin_pos by exact Hs. rewrite dsqrt_fin by lra.
  pose proof (sqrt_lt_R0 s Hs).
  rewrite !ddiv_fin by lra. reflexivity.
Qed.

Lemma qnormalized_qfin_zero (w x y z : R) :
  x * x + y * y + z * z + w * w <= 0 ->
  qnormalized (qfin w x y z) = qfin w x y z.
Proof.
  intros Hs. unfold qnormalized, qfin. cbn [qw qx qy qz dmul dadd].
  rewrite dgt_fin_nonpos by exact Hs. reflexivity.
Qed.

(** A normalized finite quaternion: finite, of squared norm 0 or 1. *)
Lemma qnormalized_finite (q : Quaterniond) :
  finite_quaternion q = true ->
  exists w x y z m,
    qnormalized q = qfin w x y z
    /\ x * x + y * y + z * z + w * w = m
    /\ (m = 0 \/ m = 1)
    /\ (q <> qfin 0 0 0 0 -> m = 1).
Proof.
  intros Hq. destruct (finite_quaternion_qfin q Hq) as (w & x & y & z & ->).
  destruct (Rlt_dec 0 (x * x + y * y + z * z + w * w)) as [Hs | Hs].
  - rewrite qnormalized_qfin_pos by exact Hs.
    set (s := x * x + y * y + z * z + w * w) in *.
    pose proof (sqrt_lt_R0 s Hs) as Hk.
    pose proof (sqrt_sqrt s (Rlt_le _ _ Hs)) as Hk2.
    exists (w / sqrt s), (x / sqrt s), (y / sqrt s), (z / sqrt s), 1.
    split; [reflexivity |]. split; [| split; [right; reflexivity | reflexivity]].
    replace (x / sqrt s * (x / sqrt s) + y / sqrt s * (y / sqrt s)
             + z / sqrt s * (z / sqrt s) + w / sqrt s * (w / sqrt s))
      with ((x * x + y * y + z * z + w * w) / (sqrt s * sqrt s)) by (field; lra).
    fold s. rewrite Hk2. field. lra.
  - rewrite qnormalized_qfin_zero by lra.
    destruct (squares4_zero w x y z) as (-> & -> & -> & ->); [lra |].
    exists 0, 0, 0, 0, 0.
    split; [reflexivity |]. split; [ring |]. split; [left; reflexivity |].
    intros Hne. exfalso. apply Hne. reflexivity.
Qed.

Lemma w_rel_qfin (w1 x1 y1 z1 w2 x2 y2 z2 : R) :
  qw (qmul (conjugate (qfin w1 x1 y1 z1)) (qfin w2 x2 y2 z2))
  = Fin (w1 * w2 - - x1 * x2 - - y1 * y2 - - z1 * z2).
Proof. reflexivity. Qed.

Lemma calculateRotationDifference_fin (q1 q2 : Quaterniond)
    (w1 x1 y1 z1 w2 x2 y2 z2 : R) :
  qnormalized q1 = qfin w1 x1 y1 z1 ->
  qnormalized q2 = qfin w2 x2 y2 z2 ->
  calculateRotationDifference q1 q2
  = dmul (Fin 2) (dacos (Fin (w1 * w2 + x1 * x2 + y1 * y2 + z1 * z2))).
Proof.
  intros H1 H2. unfold calculateRotationDifference. rewrite H1, H2, w_rel_qfin.
  do 3 f_equal. ring.
Qed.

(** X17: [calculateRotationDifference] is symmetric in its two arguments (on
    finite quaternions): the scalar part of [conj(q1) * q2] is a sum of
    products of matching coefficients. *)
Theorem calculateRotationDifference_symmetric (q1 q2 : Quaterniond) :
  finite_quaternion q1 = true ->
  finite_quaternion q2 = true ->
  calculateRotationDifference q1 q2 = calculateRotationDifference q2 q1.
Proof.
  intros H1 H2.
  destruct (qnormalized_finite q1 H1) as (w1 & x1 & y1 & z1 & m1 & Hn1 & _).
  destruct (qnormalized_finite q2 H2) as (w2 & x2 & y2 & z2 & m2 & Hn2 & _).
  rewrite (calculateRotationDifference_fin _ _ _ _ _ _ _ _ _ _ Hn1 Hn2).
  rewrite (calculateRotationDifference_fin _ _ _ _ _ _ _ _ _ _ Hn2 Hn1).
  do 3 f_equal. ring.
Qed.

Lemma calculateRotationDifference_symmetric_witness :
  calculateRotationDifference (qfin 1 2 0 0) (qfin 0 0 1 (-3))
  = calculateRotationDifference (qfin 0 0 1 (-3)) (qfin 1 2 0 0).
Proof.
  apply (calculateRotationDifference_symmetric (qfin 1 2 0 0) (qfin 0 0 1 (-3)));
    reflexivity.
Defined.

(** ** [areQuaternionsEquivalent] *)

Lemma toRotationMatrix_qneg (w x y z : R) :
  msub (toRotationMatrix (qfin w x y z)) (toRotationMatrix (qfin (- w) (- x) (- y) (- z)))
  = mkMatrix3d (Fin 0) (Fin 0) (Fin 0) (Fin 0) (Fin 0) (Fin 0) (Fin 0) (Fin 0) (Fin 0).
Proof.
  unfold toRotationMatrix, msub, qfin.
  cbn [qw qx qy qz dmul dadd dsub m00 m01 m02 m10 m11 m12 m20 m21 m22].
  f_equal; f_equal; ring.
Qed.

Lemma dlt_fin (a b : R) : dlt (Fin a) (Fin b) = if Rlt_dec a b then true else false.
Proof. reflexivity. Qed.

(** X20: [areQuaternionsEquivalent] compares rotation matrices, so it accepts
    [q] and [-q], like [q] and [q], exactly when the tolerance is positive, for
    every [q] with coefficients of magnitude at most [1e100] (so that the
    entries of the matrices are finite). *)
Theorem areQuaternionsEquivalent_sign (q : Quaterniond) (tolerance : R) :
  coefficients_within (10 ^ 100) q ->
  areQuaternionsEquivalent q (qneg q) (Fin tolerance)
  = (if Rlt_dec 0 tolerance then true else false)
  /\ areQuaternionsEquivalent q q (Fin tolerance)
     = (if Rlt_dec 0 tolerance then true else false).
Proof.
  intros (w & x & y & z & -> & _).
  assert (Hzero : mnorm (mkMatrix3d (Fin 0) (Fin 0) (Fin 0) (Fin 0) (Fin 0) (Fin 0)
                                    (Fin 0) (Fin 0) (Fin 0)) = Fin 0).
  { unfold mnorm. cbn [m00 m01 m02 m10 m11 m12 m20 m21 m22 dmul dadd].
    rewrite dsqrt_fin by lra.
    replace (0 * 0 + 0 * 0 + 0 * 0 + 0 * 0 + 0 * 0 + 0 * 0 + 0 * 0 + 0 * 0 + 0 * 0)
      with 0 by ring.
    rewrite sqrt_0. reflexivity. }
  split.
  - unfold areQuaternionsEquivalent.
    change (qneg (qfin w x y z)) with (qfin (- w) (- x) (- y) (- z)).
    rewrite toRotationMatrix_qneg, Hzero. apply dlt_fin.
  - unfold areQuaternionsEquivalent.
    assert (Hsame : msub (toRotationMatrix (qfin w x y z)) (toRotationMatrix (qfin w x y z))
                    = mkMatrix3d (Fin 0) (Fin 0) (Fin 0) (Fin 0) (Fin 0) (Fin 0)
                                 (Fin 0) (Fin 0) (Fin 0)).
    { unfold toRotationMatrix, msub, qfin.
      cbn [qw qx qy qz dmul dadd dsub m00 m01 m02 m10 m11 m12 m20 m21 m22].
      f_equal; f_equal; ring. }
    rewrite Hsame, Hzero. apply dlt_fin.
Qed.

Lemma areQuaternionsEquivalent_sign_witness :
  areQuaternionsEquivalent (qfin 0 0 1 0) (qneg (qfin 0 0 1 0)) (Fin (/ 2))
  = (if Rlt_dec 0 (/ 2) then true else false)
  /\ areQuaternionsEquivalent (qfin 0 0 1 0) (qfin 0 0 1 0) (Fin (/ 2))
     = (if Rlt_dec 0 (/ 2) then true else false).
Proof.
  pose proof (pow10_ge_1 100) as H100.
  apply (areQuaternionsEquivalent_sign (qfin 0 0 1 0) (/ 2)).
  exists 0, 0, 1, 0. repeat split; lra.
Defined.

(** ** [arePositionsEquivalent] *)

Lemma dsub_nan_l (a : double) : dsub NaN a = NaN.
Proof. destruct a; reflexivity. Qed.
Lemma dsub_nan_r (a : double) : dsub a NaN = NaN.
Proof. destruct a; reflexivity. Qed.
Lemma dadd_nan_l (a : double) : dadd NaN a = NaN.
Proof. destruct a; reflexivity. Qed.
Lemma dadd_nan_r (a : double) : dadd a NaN = NaN.
Proof. destruct a; reflexivity. Qed.

Lemma squaredNorm_nan (v : Vector3d) :
  vx v = NaN \/ vy v = NaN \/ vz v = NaN -> squaredNorm v = NaN.
Proof.
  unfold squaredNorm. intros [H | [H | H]]; rewrite H; cbn [dmul];
    rewrite ?dadd_nan_l, ?dadd_nan_r; reflexivity.
Qed.

Lemma is_nan_eq (a : double) : is_nan a = true -> a = NaN.
Proof. destruct a; try discriminate. reflexivity. Qed.

(** X21: [arePositionsEquivalent] refuses a position with a NaN coordinate,
    whatever the tolerance; on finite positions it is symmetric, and a position
    is equivalent to itself exactly when the tolerance is greater than 0. *)
Theorem arePositionsEquivalent_properties (p1 p2 : Vector3d) (tolerance : double) :
  (has_nan p1 = true \/ has_nan p2 = true ->
   arePositionsEquivalent p1 p2 tolerance = false)
  /\ (finite_vector p1 = true -> finite_vector p2 = true ->
      arePositionsEquivalent p1 p2 tolerance = arePositionsEquivalent p2 p1 tolerance)
  /\ (finite_vector p1 = true ->
      arePositionsEquivalent p1 p1 tolerance = dgt tolerance (Fin 0)).
Proof.
  split; [| split].
  - intros Hnan. unfold arePositionsEquivalent, norm.
    rewrite squaredNorm_nan; [destruct tolerance; reflexivity |].
    unfold has_nan in Hnan. rewrite !orb_true_iff in Hnan. unfold vsub. cbn [vx vy vz].
    destruct Hnan as [[[H | H] | H] | [[H | H] | H]]; apply is_nan_eq in H; rewrite H;
      rewrite ?dsub_nan_l, ?dsub_nan_r; auto.
  - intros H1 H2.
    destruct (finite_vector_vfin _ H1) as (a & b & c & ->).
    destruct (finite_vector_vfin _ H2) as (x & y & z & ->).
    unfold arePositionsEquivalent. rewrite !vsub_vfin, !norm_vfin.
    do 3 f_equal. ring.
  - intros H1. destruct (finite_vector_vfin _ H1) as (a & b & c & ->).
    unfold arePositionsEquivalent. rewrite vsub_vfin, norm_vfin.
    replace ((a - a) * (a - a) + (b - b) * (b - b) + (c - c) * (c - c)) with 0 by ring.
    rewrite sqrt_0. reflexivity.
Qed.

Lemma arePositionsEquivalent_properties_witness :
  arePositionsEquivalent (mkVector3d NaN (Fin 0) (Fin 0)) (vfin 0 0 0) PInf = false
  /\ arePositionsEquivalent (vfin 1 2 3) (vfin 1 2 3) (Fin 1) = dgt (Fin 1) (Fin 0).
Proof.
  split.
  - apply (proj1 (arePositionsEquivalent_properties
                    (mkVector3d NaN (Fin 0) (Fin 0)) (vfin 0 0 0) PInf)).
    left. reflexivity.
  - apply (proj2 (proj2 (arePositionsEquivalent_properties
                           (vfin 1 2 3) (vfin 1 2 3) (Fin 1)))).
    reflexivity.
Defined.

(** ** [generateReachableWaypoint] *)

Section Waypoints.

Variable W : Type.
Variable draw : nat -> W * bool.

Lemma generateReachableWaypoint_loop_spec (fuel tries : nat) :
  (tries <= MAX_TRIES)%nat ->
  (S MAX_TRIES - tries <= fuel)%nat ->
  (forall m, (1 <= m <= tries)%nat -> snd (draw m) = false) ->
  (exists n waypoint,
      (tries < n <= S MAX_TRIES)%nat
      /\ draw n = (waypoint, true)
      /\ (forall m, (1 <= m < n)%nat -> snd (draw m) = false)
      /\ generateReachableWaypoint_loop draw fuel tries = Some (Reachable waypoint))
  \/ ((forall m, (1 <= m <= S MAX_TRIES)%nat -> snd (draw m) = false)
      /\ generateReachableWaypoint_loop draw fuel tries
         = Some (runtime_error MAX_TRIES)).
Proof.
  revert tries. induction fuel as [| fuel IH]; intros tries Hle Hfuel Hprev.
  - lia.
  - cbn [generateReachableWaypoint_loop].
    destruct (draw (S tries)) as [waypoint isValid] eqn:Hdraw.
    destruct isValid.
    + left. exists (S tries), waypoint. repeat split; try lia; try assumption.
      intros m Hm. apply Hprev. lia.
    + assert (Hnext : forall m, (1 <= m <= S tries)%nat -> snd (draw m) = false).
      { intros m Hm. destruct (Nat.eq_dec m (S tries)) as [-> | Hneq].
        - rewrite Hdraw. reflexivity.
        - apply Hprev. lia. }
      destruct (Nat.ltb MAX_TRIES (S tries)) eqn:Hlt.
      * right. apply Nat.ltb_lt in Hlt. split; [| reflexivity].
        intros m Hm. apply Hnext. lia.
      * apply Nat.ltb_ge in Hlt.
        destruct (IH (S tries) Hlt ltac:(lia) Hnext)
          as [(n & w & Hn & Hd & Hfirst & Hres) | [Hall Hres]].
        -- left. exists n, w. repeat split; try lia; assumption.
        -- right. split; assumption.
Qed.

(** X22: [generateReachableWaypoint] ends within [MAX_TRIES + 1] passes: it
    returns the first waypoint the inverse kinematics accepts among the first
    101 drawn, and throws [std::runtime_error] when all 101 are refused, one
    pass more than the 100 tries its message reports. *)
Theorem generateReachableWaypoint_bound (extra : nat) :
  (exists n waypoint,
      (1 <= n <= S MAX_TRIES)%nat
      /\ draw n = (waypoint, true)
      /\ (forall m, (1 <= m < n)%nat -> snd (draw m) = false)
      /\ generateReachableWaypoint draw (S MAX_TRIES + extra) = Some (Reachable waypoint))
  \/ ((forall m, (1 <= m <= S MAX_TRIES)%nat -> snd (draw m) = false)
      /\ generateReachableWaypoint draw (S MAX_TRIES + extra)
         = Some (runtime_error MAX_TRIES)).
Proof.
  unfold generateReachableWaypoint.
  destruct (generateReachableWaypoint_loop_spec (S MAX_TRIES + extra) 0)
    as [(n & w & Hn & Hd & Hfirst & Hres) | [Hall Hres]].
  - apply Nat.le_0_l.
  - lia.
  - intros m Hm. lia.
  - left. exists n, w. repeat split; try lia; assumption.
  - right. split; assumption.
Qed.

End Waypoints.
